(** * FileCache: the LRU cache of tsc_wrapped (internal/tsc_wrapped/file_cache.ts)

    A shallow embedding of [FileCache], [isNonHermeticInput] and
    [CachedFileLoader], and the properties of the cache that its
    specification states.

    Modelling conventions.
    - A JavaScript object used as a dictionary ([fileCache], [lastDigests],
      the [digests] argument) is the list of its own properties in
      enumeration order.  JavaScript enumerates the keys that are array
      indices first, in ascending numeric order, and the other keys after
      them in the order they were added: [obj_set] places a new key
      accordingly.
    - A read [o[k]] is the lookup of the own property [k].  On an object made
      by [{}] the code's read also finds the members inherited from
      [Object.prototype] ([constructor], [toString], ...), and an assignment
      to [__proto__] sets the prototype instead of a property.  These names,
      [ObjectPrototype_names], are outside the model: the statements about
      the read of a key that is not stored, and about the place a written key
      takes, say for which keys they hold.
    - [undefined] results are [None]; a thrown [Error] is the [Threw] result,
      next to the state the call leaves behind.
    - Calls that leave the program ([Date.now], [shouldFreeMemory],
      [fs.readFileSync]) take their results from an environment argument.
      [debug] is a logging sink and is left out.
    - The counters of [cacheStats] are unbounded numbers (the source's are
      doubles, exact below 2^53).  [printStats] and [traceStats] only report
      them; [printStats] is not modelled.
    - [updateCache] keeps the object it is given as the ledger; the model
      takes the value that object has at the call. *)

From stdpp Require Import base list strings sorting.
From Stdlib Require Import ZArith Ascii.

(** ** Property keys *)

(** The value of a decimal digit. *)
Definition digitOf (c : ascii) : option N :=
  let n := N_of_ascii c in
  if ((48 <=? n) && (n <=? 57))%N then Some (n - 48)%N else None.

(** The number a string of decimal digits writes, after [acc]. *)
Fixpoint digitsValue (acc : N) (s : string) : option N :=
  match s with
  | EmptyString => Some acc
  | String c s' =>
      match digitOf c with
      | Some d => digitsValue (10 * acc + d) s'
      | None => None
      end
  end.

(** The array index a key is, if it is one: the canonical decimal writing
    (no leading zero) of an integer below 2^32 - 1. *)
Definition arrayIndex (k : string) : option N :=
  match k with
  | EmptyString => None
  | String c rest =>
      if decide (c = "0"%char)
      then (if decide (rest = EmptyString) then Some 0%N else None)
      else match digitsValue 0 k with
           | Some n => if (n <? 4294967295)%N then Some n else None
           | None => None
           end
  end.

(** The property names every object made by [{}] inherits from
    [Object.prototype]. *)
Definition ObjectPrototype_names : list string :=
  ["constructor"; "hasOwnProperty"; "isPrototypeOf"; "propertyIsEnumerable";
   "toLocaleString"; "toString"; "valueOf"; "__proto__";
   "__defineGetter__"; "__defineSetter__"; "__lookupGetter__"; "__lookupSetter__"].

(** A key for which the object behaves as a list that grows at the end:
    neither an array index nor an inherited name. *)
Definition plainKey (k : string) : Prop :=
  arrayIndex k = None ∧ k ∉ ObjectPrototype_names.

(** ** JavaScript objects as ordered dictionaries *)

Section js_object.
Context {V : Type}.

(** [o[k]], for an own property [k]. *)
Fixpoint obj_get (k : string) (o : list (string * V)) : option V :=
  match o with
  | [] => None
  | (k', v) :: o' => if decide (k = k') then Some v else obj_get k o'
  end.

(** [delete o[k]] *)
Definition obj_delete (k : string) (o : list (string * V)) : list (string * V) :=
  filter (λ p, p.1 ≠ k) o.

(** [o[k] = v] for a property the object has: it keeps its place. *)
Fixpoint obj_replace (k : string) (v : V) (o : list (string * V)) : list (string * V) :=
  match o with
  | [] => []
  | (k', v') :: o' =>
      if decide (k = k') then (k, v) :: o' else (k', v') :: obj_replace k v o'
  end.

(** The place of a new array index [i]: after the smaller indices, before
    the larger ones and the other keys. *)
Fixpoint obj_insert_index (i : N) (k : string) (v : V) (o : list (string * V))
    : list (string * V) :=
  match o with
  | [] => [(k, v)]
  | (k', v') :: o' =>
      match arrayIndex k' with
      | Some j =>
          if (j <? i)%N then (k', v') :: obj_insert_index i k v o'
          else (k, v) :: o
      | None => (k, v) :: o
      end
  end.

(** [o[k] = v]: an existing property keeps its place; a new one goes to its
    numeric place if it is an array index and last otherwise. *)
Definition obj_set (k : string) (v : V) (o : list (string * V)) : list (string * V) :=
  match obj_get k o with
  | Some _ => obj_replace k v o
  | None =>
      match arrayIndex k with
      | Some i => obj_insert_index i k v o
      | None => o ++ [(k, v)]
      end
  end.

(** [Object.keys(o)] *)
Definition Object_keys (o : list (string * V)) : list string := o.*1.

(** An object has each property once. *)
Definition obj_wf (o : list (string * V)) : Prop := NoDup (Object_keys o).
End js_object.

(** ** Numbers and strings *)

(** [Math.round(n / 2)] for an array length [n]: halves round up. *)
Definition Math_round_half (n : nat) : nat := (n + 1) / 2.

(** Truthiness of a string: only the empty string is falsy. *)
Definition string_truthy (s : string) : bool :=
  match s with EmptyString => false | String _ _ => true end.

(** [s.split(sep)] for a one-character separator. *)
Fixpoint split (sep : ascii) (s : string) : list string :=
  match s with
  | EmptyString => [EmptyString]
  | String c s' =>
      if decide (c = sep) then EmptyString :: split sep s'
      else match split sep s' with
           | seg :: rest => String c seg :: rest
           | [] => [String c EmptyString]
           end
  end.

(** [a.join(sep)] *)
Fixpoint join (sep : string) (a : list string) : string :=
  match a with
  | [] => EmptyString
  | [x] => x
  | x :: a' => x +:+ sep +:+ join sep a'
  end.

(** [a.indexOf(x)], with [-1] for an absent element. *)
Fixpoint indexOf (x : string) (a : list string) : Z :=
  match a with
  | [] => (-1)%Z
  | y :: a' =>
      if decide (y = x) then 0%Z
      else let i := indexOf x a' in
           if decide (i = (-1)%Z) then (-1)%Z else (i + 1)%Z
  end.

(** ** The cache *)

(** The result of a call that may throw. *)
Inductive Outcome (E A : Type) : Type :=
| Returned (a : A)
| Threw (e : E).
Arguments Returned {E A} a.
Arguments Threw {E A} e.

Section file_cache.
Variable CachedType : Type.
(** Truthiness of a cached value, as [!!value] computes it. *)
Variable truthy : CachedType → bool.

Record CacheEntry : Type := mkEntry {
  digest : string;
  value : CachedType;
}.

Record CacheStats : Type := mkStats {
  hits : nat;
  reads : nat;
  readTimeMs : Z;
}.

Record FileCache : Type := mkFileCache {
  fileCache : list (string * CacheEntry);
  lastDigests : list (string * string);
  cacheStats : CacheStats;
}.

Definition noStats : CacheStats := mkStats 0 0 0.

(** [new FileCache(debug)] *)
Definition newFileCache : FileCache := mkFileCache [] [] noStats.

(** What a [putCache] call reads from outside: the clock, twice, and the
    memory-pressure predicate. *)
Record PutEnv : Type := mkPutEnv {
  readStart : Z;
  readEnd : Z;
  shouldFreeMemory : bool;
}.

(** One turn of the loop of [updateCache]. *)
Definition dropIfStale (digests : list (string * string))
    (fc : list (string * CacheEntry)) (fp : string) : list (string * CacheEntry) :=
  match obj_get fp fc with
  | Some entry =>
      if decide (Some (digest entry) ≠ obj_get fp digests)
      then obj_delete fp fc else fc
  | None => fc
  end.

Definition updateCache (digests : list (string * string)) (c : FileCache) : FileCache :=
  mkFileCache (foldl (dropIfStale digests) (fileCache c) (Object_keys digests))
              digests (cacheStats c).

(** The message of the error [getLastDigest] throws. *)
Definition missingDigestMessage (filePath : string) (known : list string) : string :=
  "missing input digest for " +:+ filePath +:+ "." +:+
  "(only have " +:+ join "," known +:+ ")".

Definition getLastDigest (filePath : string) (c : FileCache) : Outcome string string :=
  match obj_get filePath (lastDigests c) with
  | Some d =>
      if string_truthy d then Returned d
      else Threw (missingDigestMessage filePath (Object_keys (lastDigests c)))
  | None => Threw (missingDigestMessage filePath (Object_keys (lastDigests c)))
  end.

Definition countRead (s : CacheStats) : CacheStats :=
  mkStats (hits s) (S (reads s)) (readTimeMs s).

Definition countHit (s : CacheStats) : CacheStats :=
  mkStats (S (hits s)) (reads s) (readTimeMs s).

Definition getCache (filePath : string) (c : FileCache) : option CachedType * FileCache :=
  let stats := countRead (cacheStats c) in
  match obj_get filePath (fileCache c) with
  | None => (None, mkFileCache (fileCache c) (lastDigests c) stats)
  | Some entry =>
      (Some (value entry),
       mkFileCache (obj_set filePath entry (obj_delete filePath (fileCache c)))
                   (lastDigests c) (countHit stats))
  end.

(** The eviction loop of [putCache]: the first [dropped] keys are deleted. *)
Definition evict (dropped : nat) (fc : list (string * CacheEntry)) : list (string * CacheEntry) :=
  foldl (λ fc' k, obj_delete k fc') fc (take dropped (Object_keys fc)).

Definition putCache (env : PutEnv) (filePath : string) (entry : CacheEntry)
    (c : FileCache) : FileCache :=
  let stats :=
    mkStats (hits (cacheStats c)) (reads (cacheStats c))
            (readTimeMs (cacheStats c) + (readEnd env - readStart env)) in
  let fc :=
    if shouldFreeMemory env
    then evict (Math_round_half (length (Object_keys (fileCache c)))) (fileCache c)
    else fileCache c in
  mkFileCache (obj_set filePath entry fc) (lastDigests c) stats.

Definition isKnownInput (filePath : string) (c : FileCache) : bool :=
  match obj_get filePath (lastDigests c) with
  | Some d => string_truthy d
  | None => false
  end.

Definition inCache (filePath : string) (c : FileCache) : bool * FileCache :=
  let (r, c') := getCache filePath c in
  (match r with Some v => truthy v | None => false end, c').

Definition resetStats (c : FileCache) : FileCache :=
  mkFileCache (fileCache c) (lastDigests c) noStats.

(** *** Call sequences *)

(** The calls that change a [FileCache]. *)
Inductive Op : Type :=
| OpUpdateCache (digests : list (string * string))
| OpGetCache (filePath : string)
| OpPutCache (env : PutEnv) (filePath : string) (entry : CacheEntry)
| OpInCache (filePath : string)
| OpResetStats.

Definition exec (op : Op) (c : FileCache) : FileCache :=
  match op with
  | OpUpdateCache digests => updateCache digests c
  | OpGetCache filePath => (getCache filePath c).2
  | OpPutCache env filePath entry => putCache env filePath entry c
  | OpInCache filePath => (inCache filePath c).2
  | OpResetStats => resetStats c
  end.

Definition run (ops : list Op) (c : FileCache) : FileCache :=
  foldl (λ c' op, exec op c') c ops.

(** [op] writes an entry for [filePath]. *)
Definition writes (filePath : string) (op : Op) : Prop :=
  match op with
  | OpPutCache _ fp _ => fp = filePath
  | _ => False
  end.

(** The digest stored for [filePath], if it has an entry. *)
Definition storedDigest (filePath : string) (c : FileCache) : option string :=
  digest <$> obj_get filePath (fileCache c).
End file_cache.

Arguments mkEntry {CachedType} digest value.
Arguments digest {CachedType} c.
Arguments value {CachedType} c.
Arguments mkFileCache {CachedType} fileCache lastDigests cacheStats.
Arguments fileCache {CachedType} f.
Arguments lastDigests {CachedType} f.
Arguments cacheStats {CachedType} f.
Arguments newFileCache {CachedType}.
Arguments dropIfStale {CachedType} digests fc fp.
Arguments updateCache {CachedType} digests c.
Arguments getLastDigest {CachedType} filePath c.
Arguments getCache {CachedType} filePath c.
Arguments evict {CachedType} dropped fc.
Arguments putCache {CachedType} env filePath entry c.
Arguments isKnownInput {CachedType} filePath c.
Arguments inCache {CachedType} truthy filePath c.
Arguments resetStats {CachedType} c.
Arguments OpUpdateCache {CachedType} digests.
Arguments OpGetCache {CachedType} filePath.
Arguments OpPutCache {CachedType} env filePath entry.
Arguments OpInCache {CachedType} filePath.
Arguments OpResetStats {CachedType}.
Arguments exec {CachedType} truthy op c.
Arguments run {CachedType} truthy ops c.
Arguments writes {CachedType} filePath op.
Arguments storedDigest {CachedType} filePath c.

(** ** Recency *)

(** The store [putCache] assigns into: the store, or what the eviction loop
    leaves of it. *)
Definition storeAtAssign {T : Type} (env : PutEnv) (c : FileCache T)
    : list (string * CacheEntry T) :=
  if shouldFreeMemory env
  then evict (Math_round_half (length (Object_keys (fileCache c)))) (fileCache c)
  else fileCache c.

(** The path whose entry a call inserts or accesses, in the words of the
    specification: [putCache] inserts its path; [getCache] and [inCache]
    access their path when it is stored. *)
Definition usedBySpec {T : Type} (op : Op T) (c : FileCache T) : option string :=
  match op with
  | OpPutCache _ k _ => Some k
  | OpGetCache k | OpInCache k =>
      if obj_get k (fileCache c) is Some _ then Some k else None
  | _ => None
  end.

(** The same, as the store has it: a [putCache] that finds its path in the
    store it assigns into replaces the entry where it stands, and counts as
    no insertion. *)
Definition usedBy {T : Type} (op : Op T) (c : FileCache T) : option string :=
  match op with
  | OpPutCache env k _ =>
      if obj_get k (storeAtAssign env c) is Some _ then None else Some k
  | OpGetCache k | OpInCache k =>
      if obj_get k (fileCache c) is Some _ then Some k else None
  | _ => None
  end.

(** A cache with a clock that counts the calls, and the time of the last use
    of every path. *)
Record Timed (T : Type) : Type := mkTimed {
  cacheNow : FileCache T;
  clock : nat;
  lastUse : string → option nat;
}.
Arguments mkTimed {T} cacheNow clock lastUse.
Arguments cacheNow {T} t.
Arguments clock {T} t.
Arguments lastUse {T} t k.

Definition tick {T : Type} (truthy : T → bool)
    (used : Op T → FileCache T → option string) (s : Timed T) (op : Op T) : Timed T :=
  mkTimed (exec truthy op (cacheNow s)) (S (clock s))
          (λ k, if decide (used op (cacheNow s) = Some k)
                then Some (clock s) else lastUse s k).

Definition runTimed {T : Type} (truthy : T → bool)
    (used : Op T → FileCache T → option string) (ops : list (Op T))
    (c : FileCache T) : Timed T :=
  foldl (tick truthy used) (mkTimed c 0 (λ _, None)) ops.

(** [k1] was last used before [k2]. *)
Definition usedBefore {T : Type} (s : Timed T) (k1 k2 : string) : Prop :=
  ∃ t1 t2, lastUse s k1 = Some t1 ∧ lastUse s k2 = Some t2 ∧ t1 < t2.

(** The keys are in the order of their last use, and were all used. *)
Definition inUseOrder {T : Type} (s : Timed T) (ks : list string) : Prop :=
  StronglySorted (usedBefore s) ks ∧
  Forall (λ k, ∃ t, lastUse s k = Some t ∧ t < clock s) ks.

(** The paths of the call are plain keys. *)
Definition plainOp {T : Type} (op : Op T) : Prop :=
  match op with
  | OpGetCache k | OpInCache k | OpPutCache _ k _ => plainKey k
  | _ => True
  end.

(** ** The hermeticity test and the loaders *)

(** [isNonHermeticInput]; [sep] is [path.sep]. *)
Definition isNonHermeticInput (sep : ascii) (filePath : string) : bool :=
  bool_decide (indexOf "node_modules" (split sep filePath) ≠ (-1)%Z).

(** What [loadFile] throws: the error of [fs.readFileSync], or the one of
    [getLastDigest] with its message. *)
Inductive LoadError : Type :=
| IOError (filePath : string)
| MissingDigest (message : string).

Section loaders.
(** [ts.SourceFile] and [ts.ScriptTarget], and the parser
    [ts.createSourceFile(fileName, sourceText, langVer, true)]. *)
Variable SourceFile : Type.
Variable ScriptTarget : Type.
Variable createSourceFile : string → string → ScriptTarget → SourceFile.
Variable path_sep : ascii.

(** What a [loadFile] call reads from outside: the file system ([None]
    where [fs.readFileSync] throws) and what [putCache] reads. *)
Record LoadEnv : Type := mkLoadEnv {
  readFileSync : string → option string;
  putEnv : PutEnv;
}.

Record CachedFileLoader : Type := mkCachedFileLoader {
  allowNonHermeticReads : bool;
}.

(** [CachedFileLoader.loadFile].  A [ts.SourceFile] is an object, so
    [!sourceFile] holds for [undefined] only. *)
Definition loadFile (self : CachedFileLoader) (env : LoadEnv)
    (fileName filePath : string) (langVer : ScriptTarget)
    (c : FileCache SourceFile) : Outcome LoadError SourceFile * FileCache SourceFile :=
  let (cached, c1) := getCache filePath c in
  match cached with
  | Some sourceFile => (Returned sourceFile, c1)
  | None =>
      match readFileSync env filePath with
      | None => (Threw (IOError filePath), c1)
      | Some sourceText =>
          let sourceFile := createSourceFile fileName sourceText langVer in
          if allowNonHermeticReads self && negb (isKnownInput filePath c1)
             && isNonHermeticInput path_sep filePath
          then (Returned sourceFile, c1)
          else match getLastDigest filePath c1 with
               | Threw message => (Threw (MissingDigest message), c1)
               | Returned d =>
                   (Returned sourceFile,
                    putCache (putEnv env) filePath (mkEntry d sourceFile) c1)
               end
      end
  end.

(** [UncachedFileLoader.loadFile] *)
Definition uncachedLoadFile (env : LoadEnv) (fileName filePath : string)
    (langVer : ScriptTarget) : Outcome LoadError SourceFile :=
  match readFileSync env filePath with
  | None => Threw (IOError filePath)
  | Some sourceText => Returned (createSourceFile fileName sourceText langVer)
  end.

(** *** Call sequences of a client *)

(** A client calls the cache itself or loads a file through the loader. *)
Inductive Call : Type :=
| CallCache (op : Op SourceFile)
| CallLoadFile (self : CachedFileLoader) (env : LoadEnv)
    (fileName filePath : string) (langVer : ScriptTarget).

Definition step (call : Call) (c : FileCache SourceFile) : FileCache SourceFile :=
  match call with
  | CallCache op => exec (λ _, true) op c
  | CallLoadFile self env fileName filePath langVer =>
      (loadFile self env fileName filePath langVer c).2
  end.

Definition runCalls (calls : list Call) (c : FileCache SourceFile) : FileCache SourceFile :=
  foldl (λ c' call, step call c') c calls.

(** [call], made in state [c], is not a [putCache] that gives [id] a digest
    other than the one stored for it. *)
Definition keepsDigest (id : string) (call : Call) (c : FileCache SourceFile) : Prop :=
  match call with
  | CallCache (OpPutCache _ filePath entry) =>
      filePath = id → ∀ d, storedDigest id c = Some d → digest entry = d
  | _ => True
  end.

(** Every call of the sequence, in the state it is made in, keeps the digest
    of [id]. *)
Fixpoint keepDigests (id : string) (calls : list Call) (c : FileCache SourceFile) : Prop :=
  match calls with
  | [] => True
  | call :: calls' => keepsDigest id call c ∧ keepDigests id calls' (step call c)
  end.
End loaders.

Arguments readFileSync l filePath : rename.
Arguments CallCache {SourceFile ScriptTarget} op.
Arguments CallLoadFile {SourceFile ScriptTarget} self env fileName filePath langVer.
Arguments step {SourceFile ScriptTarget} createSourceFile path_sep call c.
Arguments runCalls {SourceFile ScriptTarget} createSourceFile path_sep calls c.
Arguments keepsDigest {SourceFile ScriptTarget} id call c.
Arguments keepDigests {SourceFile ScriptTarget} createSourceFile path_sep id calls c.

(** ** Reporting and the conditions on call sequences *)

(** [traceStats]: the counters it hands to [perfTrace.counter], call by
    call. *)
Definition traceStats {T : Type} (c : FileCache T) : list (string * list (string * Z)) :=
  [("file cache hit rate",
    [("hits", Z.of_nat (hits (cacheStats c)));
     ("misses", (Z.of_nat (reads (cacheStats c)) - Z.of_nat (hits (cacheStats c)))%Z)]);
   ("file cache time", [("read", readTimeMs (cacheStats c))])].

(** Every stored entry whose path has a digest in the ledger carries that
    digest. *)
Definition coherent {T : Type} (c : FileCache T) : Prop :=
  ∀ k e d,
    obj_get k (fileCache c) = Some e → obj_get k (lastDigests c) = Some d →
    digest e = d.

(** [call] is not a [putCache] made by the client itself. *)
Definition viaLoader {SourceFile ScriptTarget : Type}
    (call : Call SourceFile ScriptTarget) : Prop :=
  match call with
  | CallCache (OpPutCache _ _ _) => False
  | _ => True
  end.

(** The path [call] looks up is no inherited name. *)
Definition noInheritedPath {SourceFile ScriptTarget : Type}
    (call : Call SourceFile ScriptTarget) : Prop :=
  match call with
  | CallCache (OpGetCache k) | CallCache (OpInCache k) => k ∉ ObjectPrototype_names
  | CallLoadFile _ _ _ k _ => k ∉ ObjectPrototype_names
  | _ => True
  end.

(** [call] is not an [updateCache]. *)
Definition keepsLedger {SourceFile ScriptTarget : Type}
    (call : Call SourceFile ScriptTarget) : Prop :=
  match call with
  | CallCache (OpUpdateCache _) => False
  | _ => True
  end.

(** The lookups [call] makes: [getCache], [inCache] and [loadFile] make
    one. *)
Definition lookupsOf {SourceFile ScriptTarget : Type}
    (call : Call SourceFile ScriptTarget) : nat :=
  match call with
  | CallCache (OpGetCache _) | CallCache (OpInCache _) => 1
  | CallLoadFile _ _ _ _ _ => 1
  | _ => 0
  end.

(** ** Sample states *)

(** A cache whose ledger records the empty digest for [a.ts]. *)
Definition emptyDigestCache : FileCache nat :=
  mkFileCache [] [("a.ts", "")] noStats.

(** Ten entries [e1] to [e10], and the two kinds of write. *)
Definition scenarioEntries : list (string * CacheEntry nat) :=
  [("e1", mkEntry "d1" 1); ("e2", mkEntry "d2" 2); ("e3", mkEntry "d3" 3);
   ("e4", mkEntry "d4" 4); ("e5", mkEntry "d5" 5); ("e6", mkEntry "d6" 6);
   ("e7", mkEntry "d7" 7); ("e8", mkEntry "d8" 8); ("e9", mkEntry "d9" 9);
   ("e10", mkEntry "d10" 10)].

Definition quietEnv : PutEnv := mkPutEnv 0 0 false.
Definition pressureEnv : PutEnv := mkPutEnv 0 0 true.

(** A short history: a digest update, a write of [a.ts] and a read of it. *)
Definition historyOps : list (Op nat) :=
  [OpUpdateCache [("a.ts", "d1")];
   OpPutCache quietEnv "a.ts" (mkEntry "d1" 1);
   OpGetCache "a.ts"].

(** Writes of [a.ts], [b.ts] and [a.ts] again, without memory pressure. *)
Definition overwriteOps : list (Op nat) :=
  [OpPutCache quietEnv "a.ts" (mkEntry "d1" 1);
   OpPutCache quietEnv "b.ts" (mkEntry "d2" 2);
   OpPutCache quietEnv "a.ts" (mkEntry "d3" 3)].

(** Writes of [b.ts] and then of [1], a key that is an array index. *)
Definition indexKeyOps : list (Op nat) :=
  [OpPutCache quietEnv "b.ts" (mkEntry "d2" 2);
   OpPutCache quietEnv "1" (mkEntry "d1" 1)].

(** A cache that holds [a.ts] with digest [d1]. *)
Definition oneEntryCache : FileCache string :=
  mkFileCache [("a.ts", mkEntry "d1" "let a = 1;")] [("a.ts", "d1")] noStats.

(** A parser that keeps the text, a loader that allows non-hermetic reads,
    and a file system with [a.ts] and one file under [node_modules]. *)
Definition textParser (fileName sourceText : string) (langVer : unit) : string :=
  sourceText.

Definition lenientLoader : CachedFileLoader := mkCachedFileLoader true.

Definition libPath : string := "node_modules/typescript/lib/lib.d.ts".

Definition sampleDisk : LoadEnv :=
  mkLoadEnv (λ filePath,
               if decide (filePath = libPath) then Some "declare var x: number;"
               else if decide (filePath = "a.ts") then Some "let a = 2;"
               else None)
            quietEnv.

(** A new digest for [a.ts], then a load of it. *)
Definition reloadCalls : list (Call string unit) :=
  [CallCache (OpUpdateCache [("a.ts", "d2")]);
   CallLoadFile lenientLoader sampleDisk "a.ts" "a.ts" ()].
Arguments loadFile {SourceFile ScriptTarget} createSourceFile path_sep self env
  fileName filePath langVer c.
Arguments uncachedLoadFile {SourceFile ScriptTarget} createSourceFile env
  fileName filePath langVer.

(** * Properties *)

(** ** Objects *)

Section js_object_facts.
Context {V : Type}.
Implicit Types (o : list (string * V)) (k : string) (v : V).

Lemma obj_get_None k o : obj_get k o = None ↔ k ∉ Object_keys o.
Proof.
  induction o as [|[k' v'] o IH]; simpl.
  - split; [intros _; apply not_elem_of_nil | done].
  - rewrite not_elem_of_cons. case_decide; [|tauto].
    split; [done | intros [? _]; congruence].
Qed.

Lemma obj_get_Some_elem k v o : obj_get k o = Some v → (k, v) ∈ o.
Proof.
  induction o as [|[k' v'] o IH]; simpl; [done|].
  case_decide; intros ?; simplify_eq; [left | right; auto].
Qed.

Lemma obj_get_elem_wf k v o : obj_wf o → (k, v) ∈ o → obj_get k o = Some v.
Proof.
  unfold obj_wf, Object_keys.
  induction o as [|[k' v'] o IH]; simpl; intros Hnd Hin.
  - by apply elem_of_nil in Hin.
  - apply NoDup_cons in Hnd as [Hk Hnd].
    apply elem_of_cons in Hin as [Heq | Hin].
    + simplify_eq. by rewrite decide_True.
    + rewrite decide_False; [by apply IH|].
      intros ->. apply Hk, list_elem_of_fmap. by exists (k', v).
Qed.

Lemma obj_delete_cons_eq k v o : obj_delete k ((k, v) :: o) = obj_delete k o.
Proof. unfold obj_delete. by rewrite filter_cons_False; [|simpl; auto]. Qed.

Lemma obj_delete_cons_ne k k' v o :
  k' ≠ k → obj_delete k ((k', v) :: o) = (k', v) :: obj_delete k o.
Proof. intros. unfold obj_delete. by rewrite filter_cons_True. Qed.

Lemma obj_get_delete_eq k o : obj_get k (obj_delete k o) = None.
Proof.
  induction o as [|[k' v'] o IH]; [done|].
  destruct (decide (k' = k)) as [->|Hne].
  - by rewrite obj_delete_cons_eq.
  - rewrite obj_delete_cons_ne; [|done]. simpl. by rewrite decide_False.
Qed.

Lemma obj_get_delete_ne k k' o : k ≠ k' → obj_get k' (obj_delete k o) = obj_get k' o.
Proof.
  intros Hne. induction o as [|[k'' v''] o IH]; [done|].
  destruct (decide (k'' = k)) as [->|Hne'].
  - rewrite obj_delete_cons_eq. simpl. by rewrite decide_False.
  - rewrite obj_delete_cons_ne; [|done]. simpl. by rewrite IH.
Qed.

Lemma obj_delete_absent k o : obj_get k o = None → obj_delete k o = o.
Proof.
  induction o as [|[k' v'] o IH]; [done|]. simpl.
  case_decide; [done|]. intros Hk.
  rewrite obj_delete_cons_ne; [|done]. by rewrite IH.
Qed.

Lemma obj_get_replace_eq k v o :
  is_Some (obj_get k o) → obj_get k (obj_replace k v o) = Some v.
Proof.
  induction o as [|[k' v'] o IH]; simpl; [by intros [? ?]|].
  case_decide; simpl; [by rewrite decide_True | by rewrite decide_False].
Qed.

Lemma obj_get_replace_ne k k' v o :
  k ≠ k' → obj_get k' (obj_replace k v o) = obj_get k' o.
Proof.
  intros Hne. induction o as [|[k'' v''] o IH]; simpl; [done|].
  case_decide; simplify_eq; simpl.
  - by rewrite !decide_False.
  - by rewrite IH.
Qed.

Lemma obj_keys_replace k v o : Object_keys (obj_replace k v o) = Object_keys o.
Proof.
  unfold Object_keys. induction o as [|[k' v'] o IH]; simpl; [done|].
  case_decide; simplify_eq; csimpl; [done | by rewrite IH].
Qed.

Lemma obj_insert_index_perm i k v o : obj_insert_index i k v o ≡ₚ (k, v) :: o.
Proof.
  induction o as [|[k' v'] o IH]; simpl; [done|].
  destruct (arrayIndex k') as [j|]; [|done].
  destruct (j <? i)%N; [|done].
  rewrite IH. apply Permutation_swap.
Qed.

Lemma obj_get_insert_index_eq i k v o :
  obj_get k o = None → obj_get k (obj_insert_index i k v o) = Some v.
Proof.
  induction o as [|[k' v'] o IH]; simpl.
  - by rewrite decide_True.
  - case_decide; [done|]. intros Hk.
    destruct (arrayIndex k') as [j|]; [destruct (j <? i)%N|]; simpl;
      rewrite ?decide_True by done; rewrite ?decide_False by done; auto.
Qed.

Lemma obj_get_insert_index_ne i k k' v o :
  k ≠ k' → obj_get k' (obj_insert_index i k v o) = obj_get k' o.
Proof.
  intros Hne. induction o as [|[k'' v''] o IH]; simpl.
  - by rewrite decide_False.
  - destruct (arrayIndex k'') as [j|]; [destruct (j <? i)%N|]; simpl;
      rewrite ?IH; rewrite ?(decide_False (P := k' = k)) by done; done.
Qed.

Lemma obj_get_app_None k o o' :
  obj_get k o = None → obj_get k (o ++ o') = obj_get k o'.
Proof.
  induction o as [|[k' v'] o IH]; simpl; [done|]. case_decide; [done | apply IH].
Qed.

Lemma obj_get_app_Some k v o o' :
  obj_get k o = Some v → obj_get k (o ++ o') = Some v.
Proof.
  induction o as [|[k' v'] o IH]; simpl; [done|]. case_decide; [done | apply IH].
Qed.

Lemma obj_get_set_eq k v o : obj_get k (obj_set k v o) = Some v.
Proof.
  unfold obj_set. destruct (obj_get k o) as [v'|] eqn:Hk.
  - apply obj_get_replace_eq. by rewrite Hk.
  - destruct (arrayIndex k) as [i|].
    + by apply obj_get_insert_index_eq.
    + rewrite obj_get_app_None; [|done]. simpl. by rewrite decide_True.
Qed.

Lemma obj_get_set_ne k k' v o : k ≠ k' → obj_get k' (obj_set k v o) = obj_get k' o.
Proof.
  intros Hne. unfold obj_set. destruct (obj_get k o) as [v'|] eqn:Hk.
  - by apply obj_get_replace_ne.
  - destruct (arrayIndex k) as [i|].
    + by apply obj_get_insert_index_ne.
    + destruct (obj_get k' o) as [v''|] eqn:Hk'.
      * by apply obj_get_app_Some.
      * rewrite obj_get_app_None; [|done]. simpl. by rewrite decide_False.
Qed.

Lemma obj_set_nil k v : obj_set k v [] = [(k, v)].
Proof. unfold obj_set. simpl. by destruct (arrayIndex k). Qed.

(** Assigning a property the object lacks, under a key that is no array
    index, appends it. *)
Lemma obj_set_absent k v o :
  arrayIndex k = None → obj_get k o = None → obj_set k v o = o ++ [(k, v)].
Proof. intros Hi Hk. unfold obj_set. by rewrite Hk, Hi. Qed.

(** Assigning a property the object has leaves the enumeration order. *)
Lemma obj_keys_set_present k v o :
  is_Some (obj_get k o) → Object_keys (obj_set k v o) = Object_keys o.
Proof.
  intros [v' Hk]. unfold obj_set. rewrite Hk. apply obj_keys_replace.
Qed.

(** Assigning a property the object lacks adds it, somewhere. *)
Lemma obj_set_absent_perm k v o : obj_get k o = None → obj_set k v o ≡ₚ (k, v) :: o.
Proof.
  intros Hk. unfold obj_set. rewrite Hk. destruct (arrayIndex k) as [i|].
  - apply obj_insert_index_perm.
  - symmetry. apply Permutation_cons_append.
Qed.

Lemma obj_keys_delete k o :
  Object_keys (obj_delete k o) = filter (λ k', k' ≠ k) (Object_keys o).
Proof.
  unfold Object_keys.
  induction o as [|[k' v'] o IH]; [done|].
  destruct (decide (k' = k)) as [->|Hne].
  - rewrite obj_delete_cons_eq, IH. csimpl. by rewrite filter_cons_False; [|auto].
  - rewrite obj_delete_cons_ne; [|done]. csimpl. by rewrite filter_cons_True, IH.
Qed.

Lemma obj_wf_nil : obj_wf (@nil (string * V)).
Proof. apply NoDup_nil_2. Qed.

Lemma obj_wf_delete k o : obj_wf o → obj_wf (obj_delete k o).
Proof. unfold obj_wf. rewrite obj_keys_delete. apply NoDup_filter. Qed.

Lemma obj_wf_set k v o : obj_wf o → obj_wf (obj_set k v o).
Proof.
  intros Hwf. destruct (obj_get k o) as [v'|] eqn:Hk.
  - unfold obj_wf. by rewrite obj_keys_set_present.
  - unfold obj_wf, Object_keys. rewrite (obj_set_absent_perm k v o Hk). csimpl.
    apply NoDup_cons. split; [by apply obj_get_None | done].
Qed.

Lemma obj_wf_drop n o : obj_wf o → obj_wf (drop n o).
Proof.
  unfold obj_wf, Object_keys. rewrite fmap_drop.
  intros Hnd. rewrite <- (take_drop n (o.*1)) in Hnd.
  by apply NoDup_app in Hnd as (_ & _ & ?).
Qed.
End js_object_facts.

(** ** The digest update *)

Section update_facts.
Context {T : Type}.
Implicit Types (fc : list (string * CacheEntry T)) (c : FileCache T).
Implicit Types (digests : list (string * string)) (k fp : string).

Lemma dropIfStale_get digests fc fp k :
  obj_get k (dropIfStale digests fc fp) =
  match obj_get k fc with
  | Some e =>
      if decide (fp = k ∧ Some (digest e) ≠ obj_get k digests) then None else Some e
  | None => None
  end.
Proof.
  unfold dropIfStale. destruct (decide (fp = k)) as [->|Hne].
  - destruct (obj_get k fc) as [e|] eqn:Hk; [|by rewrite Hk].
    destruct (decide (k = k ∧ Some (digest e) ≠ obj_get k digests)) as [[_ Hs]|Hs].
    + rewrite decide_True; [|done]. apply obj_get_delete_eq.
    + rewrite decide_False; [done | tauto].
  - assert (obj_get k (dropIfStale digests fc fp) = obj_get k fc) as Hsame.
    { unfold dropIfStale. destruct (obj_get fp fc) as [e'|]; [|done].
      case_decide; [by apply obj_get_delete_ne | done]. }
    unfold dropIfStale in Hsame. rewrite Hsame.
    destruct (obj_get k fc) as [e|]; [|done].
    rewrite decide_False; [done | tauto].
Qed.

Lemma dropIfStale_loop_get digests fc ks k :
  obj_get k (foldl (dropIfStale digests) fc ks) =
  match obj_get k fc with
  | Some e =>
      if decide (k ∈ ks ∧ Some (digest e) ≠ obj_get k digests) then None else Some e
  | None => None
  end.
Proof.
  revert fc. induction ks as [|fp ks IH]; intros fc; cbn [foldl].
  - destruct (obj_get k fc); [|done].
    rewrite decide_False; [done|]. intros [Hin _]. by apply elem_of_nil in Hin.
  - rewrite IH, dropIfStale_get.
    destruct (obj_get k fc) as [e|]; [|done].
    destruct (decide (fp = k ∧ Some (digest e) ≠ obj_get k digests)) as [[-> Hs]|Hn].
    + rewrite decide_True; [done|]. split; [left | done].
    + destruct (decide (k ∈ ks ∧ Some (digest e) ≠ obj_get k digests)) as [[Hin Hs]|Hn'].
      * rewrite decide_True; [done|]. split; [by right | done].
      * rewrite decide_False; [done|]. intros [Hin Hs].
        apply elem_of_cons in Hin as [->|Hin]; tauto.
Qed.

(** What [updateCache] leaves under each key. *)
Lemma updateCache_get digests c k :
  obj_get k (fileCache (updateCache digests c)) =
  match obj_get k (fileCache c), obj_get k digests with
  | Some e, Some d => if decide (digest e = d) then Some e else None
  | r, _ => r
  end.
Proof.
  unfold updateCache. simpl. rewrite dropIfStale_loop_get.
  destruct (obj_get k (fileCache c)) as [e|]; [|done].
  destruct (obj_get k digests) as [d|] eqn:Hd.
  - assert (k ∈ Object_keys digests) as Hin.
    { destruct (decide (k ∈ Object_keys digests)) as [|Hn]; [done|].
      apply obj_get_None in Hn. congruence. }
    destruct (decide (digest e = d)) as [->|Hne].
    + rewrite decide_False; [done|]. intros [_ ?]. done.
    + rewrite decide_True; [done|]. split; [done | congruence].
  - rewrite decide_False; [done|]. intros [Hin _].
    by apply obj_get_None in Hd.
Qed.

Lemma dropIfStale_sublist digests fc fp : dropIfStale digests fc fp `sublist_of` fc.
Proof.
  unfold dropIfStale. destruct (obj_get fp fc); [|done].
  case_decide; [apply sublist_filter | done].
Qed.

(** The update only removes entries: what stays keeps its order. *)
Lemma updateCache_sublist digests c :
  fileCache (updateCache digests c) `sublist_of` fileCache c.
Proof.
  unfold updateCache. simpl. generalize (fileCache c) as fc.
  induction (Object_keys digests) as [|fp ks IH]; intros fc; simpl; [done|].
  etrans; [apply IH | apply dropIfStale_sublist].
Qed.

Lemma dropIfStale_wf digests fc fp : obj_wf fc → obj_wf (dropIfStale digests fc fp).
Proof.
  intros Hwf. unfold dropIfStale. destruct (obj_get fp fc); [|done].
  case_decide; [by apply obj_wf_delete | done].
Qed.

Lemma updateCache_wf digests c :
  obj_wf (fileCache c) → obj_wf (fileCache (updateCache digests c)).
Proof.
  unfold updateCache. simpl. generalize (fileCache c) as fc.
  induction (Object_keys digests) as [|fp ks IH]; intros fc Hwf; simpl; [done|].
  by apply IH, dropIfStale_wf.
Qed.
End update_facts.

(** ** Reads, writes and eviction *)

Lemma Math_round_half_ceil n : 2 * Math_round_half n - 1 ≤ n ≤ 2 * Math_round_half n.
Proof.
  unfold Math_round_half.
  pose proof (Nat.div_mod_eq (n + 1) 2) as Hdm.
  pose proof (Nat.mod_upper_bound (n + 1) 2) as Hub. lia.
Qed.

Lemma Math_round_half_rest n : n - Math_round_half n = n / 2.
Proof.
  unfold Math_round_half.
  pose proof (Nat.div_mod_eq (n + 1) 2) as Hdm.
  pose proof (Nat.mod_upper_bound (n + 1) 2) as Hub.
  pose proof (Nat.div_mod_eq n 2) as Hdm'.
  pose proof (Nat.mod_upper_bound n 2) as Hub'. lia.
Qed.

Section cache_facts.
Context {T : Type}.
Implicit Types (fc : list (string * CacheEntry T)) (c : FileCache T).
Implicit Types (k id : string) (e : CacheEntry T).

Lemma newFileCache_wf : obj_wf (fileCache (@newFileCache T)).
Proof. apply obj_wf_nil. Qed.

Lemma getCache_miss id c :
  obj_get id (fileCache c) = None →
  getCache id c =
  (None, mkFileCache (fileCache c) (lastDigests c) (countRead (cacheStats c))).
Proof. intros Hk. unfold getCache. by rewrite Hk. Qed.

Lemma getCache_hit id e c :
  obj_get id (fileCache c) = Some e →
  getCache id c =
  (Some (value e),
   mkFileCache (obj_set id e (obj_delete id (fileCache c))) (lastDigests c)
               (countHit (countRead (cacheStats c)))).
Proof. intros Hk. unfold getCache. by rewrite Hk. Qed.

(** A hit under a key that is no array index moves the entry to the end. *)
Lemma getCache_hit_end id e c :
  arrayIndex id = None →
  obj_get id (fileCache c) = Some e →
  getCache id c =
  (Some (value e),
   mkFileCache (obj_delete id (fileCache c) ++ [(id, e)]) (lastDigests c)
               (countHit (countRead (cacheStats c)))).
Proof.
  intros Hi Hk. rewrite (getCache_hit _ _ _ Hk).
  by rewrite obj_set_absent; [| |apply obj_get_delete_eq].
Qed.

(** A read changes no entry, only the order. *)
Lemma getCache_get id c k :
  obj_get k (fileCache (getCache id c).2) = obj_get k (fileCache c).
Proof.
  unfold getCache. destruct (obj_get id (fileCache c)) as [e|] eqn:Hid; [|done].
  simpl. destruct (decide (id = k)) as [->|Hne].
  - by rewrite obj_get_set_eq.
  - by rewrite obj_get_set_ne, obj_get_delete_ne.
Qed.

Lemma getCache_lastDigests id c : lastDigests (getCache id c).2 = lastDigests c.
Proof. unfold getCache. by destruct (obj_get id (fileCache c)). Qed.

Lemma getCache_wf id c : obj_wf (fileCache c) → obj_wf (fileCache (getCache id c).2).
Proof.
  intros Hwf. unfold getCache. destruct (obj_get id (fileCache c)); [|done].
  simpl. by apply obj_wf_set, obj_wf_delete.
Qed.

Lemma delete_loop_get (ks : list string) fc k :
  obj_get k (foldl (λ fc' k', obj_delete k' fc') fc ks) =
  if decide (k ∈ ks) then None else obj_get k fc.
Proof.
  revert fc. induction ks as [|k' ks IH]; intros fc; cbn [foldl].
  - rewrite decide_False; [done | apply not_elem_of_nil].
  - rewrite IH. destruct (decide (k ∈ ks)) as [Hin|Hin].
    + rewrite decide_True; [done | by right].
    + destruct (decide (k' = k)) as [->|Hne].
      * rewrite decide_True; [apply obj_get_delete_eq | left].
      * rewrite decide_False; [by apply obj_get_delete_ne|].
        intros [->|?]%elem_of_cons; done.
Qed.

(** Eviction only removes entries. *)
Lemma evict_get_None n fc k : obj_get k fc = None → obj_get k (evict n fc) = None.
Proof. intros Hk. unfold evict. rewrite delete_loop_get. by case_decide. Qed.

(** The eviction loop removes the first [n] entries and nothing else. *)
Lemma evict_drop n fc : obj_wf fc → evict n fc = drop n fc.
Proof.
  unfold evict, obj_wf, Object_keys. revert n.
  induction fc as [|[k v] fc IH]; intros n Hnd.
  - by destruct n.
  - destruct n as [|n]; [done|]. csimpl in *.
    apply NoDup_cons in Hnd as [Hk Hnd].
    rewrite obj_delete_cons_eq, obj_delete_absent; [by apply IH|].
    by apply obj_get_None.
Qed.

Lemma evict_wf n fc : obj_wf fc → obj_wf (evict n fc).
Proof. intros Hwf. rewrite evict_drop; [|done]. by apply obj_wf_drop. Qed.

Lemma putCache_fileCache_quiet env id e c :
  shouldFreeMemory env = false →
  fileCache (putCache env id e c) = obj_set id e (fileCache c).
Proof. intros Hq. unfold putCache. by rewrite Hq. Qed.

Lemma putCache_fileCache_pressure env id e c :
  obj_wf (fileCache c) → shouldFreeMemory env = true →
  fileCache (putCache env id e c) =
  obj_set id e (drop (Math_round_half (length (fileCache c))) (fileCache c)).
Proof.
  intros Hwf Hp. unfold putCache. rewrite Hp. simpl.
  unfold Object_keys at 1. rewrite length_fmap. by rewrite evict_drop.
Qed.

Lemma putCache_get_eq env id e c : obj_get id (fileCache (putCache env id e c)) = Some e.
Proof. unfold putCache. simpl. apply obj_get_set_eq. Qed.

(** A write leaves the other keys alone, or evicts them. *)
Lemma putCache_get_ne env id e c k :
  id ≠ k →
  obj_get k (fileCache (putCache env id e c)) = obj_get k (fileCache c) ∨
  obj_get k (fileCache (putCache env id e c)) = None.
Proof.
  intros Hne. unfold putCache. simpl. rewrite obj_get_set_ne; [|done].
  destruct (shouldFreeMemory env); [|by left].
  unfold evict. rewrite delete_loop_get. case_decide; [by right | by left].
Qed.

Lemma putCache_lastDigests env id e c : lastDigests (putCache env id e c) = lastDigests c.
Proof. done. Qed.

Lemma putCache_wf env id e c :
  obj_wf (fileCache c) → obj_wf (fileCache (putCache env id e c)).
Proof.
  intros Hwf. unfold putCache. simpl. apply obj_wf_set.
  destruct (shouldFreeMemory env); [by apply evict_wf | done].
Qed.

(** A write followed by a read of the same key, whatever the memory
    pressure. *)
Lemma putCache_getCache env id e c :
  (getCache id (putCache env id e c)).1 = Some (value e).
Proof.
  erewrite getCache_hit; [done|]. apply putCache_get_eq.
Qed.

(** Writes of new keys, without memory pressure, append in order. *)
Lemma putCache_quiet_build env (l : list (string * CacheEntry T)) c :
  shouldFreeMemory env = false →
  Forall (λ k, arrayIndex k = None) (Object_keys l) →
  obj_wf (fileCache c ++ l) →
  fileCache (foldl (λ c' p, putCache env p.1 p.2 c') c l) = fileCache c ++ l.
Proof.
  intros Hq Hl. revert c.
  induction l as [|[k e] l IH]; intros c Hwf; cbn [foldl fst snd].
  - by rewrite app_nil_r.
  - apply Forall_cons in Hl as [Hk Hl]. specialize (IH Hl).
    assert (fileCache (putCache env k e c) = fileCache c ++ [(k, e)]) as Hput.
    { rewrite putCache_fileCache_quiet; [|done]. apply obj_set_absent; [done|].
      apply obj_get_None. unfold obj_wf, Object_keys in *.
      rewrite fmap_app in Hwf. apply NoDup_app in Hwf as (_ & Hdisj & _).
      intros Hin. apply (Hdisj _ Hin). left. }
    rewrite IH; rewrite Hput, <- app_assoc; done.
Qed.

Section sequences.
Variable truthy : T → bool.

Lemma inCache_state id c : (inCache truthy id c).2 = (getCache id c).2.
Proof. unfold inCache. by destruct (getCache id c). Qed.

(** Every call keeps the store an object: one entry per key. *)
Lemma exec_wf op c : obj_wf (fileCache c) → obj_wf (fileCache (exec truthy op c)).
Proof.
  intros Hwf. destruct op; cbn [exec].
  - by apply updateCache_wf.
  - by apply getCache_wf.
  - by apply putCache_wf.
  - rewrite inCache_state. by apply getCache_wf.
  - done.
Qed.

Lemma run_wf ops c : obj_wf (fileCache c) → obj_wf (fileCache (run truthy ops c)).
Proof.
  unfold run. revert c. induction ops as [|op ops IH]; intros c Hwf; simpl; [done|].
  by apply IH, exec_wf.
Qed.

(** A call that does not write [id] does not make it present. *)
Lemma exec_absent id op c :
  ¬ writes id op → obj_get id (fileCache c) = None →
  obj_get id (fileCache (exec truthy op c)) = None.
Proof.
  intros Hw Hk. destruct op as [digests|fp|env fp e|fp|]; cbn [exec writes] in *.
  - rewrite updateCache_get. by rewrite Hk.
  - by rewrite getCache_get.
  - destruct (putCache_get_ne env fp e c id) as [-> | ->]; done.
  - by rewrite inCache_state, getCache_get.
  - done.
Qed.

Lemma run_never_written id ops c :
  Forall (λ op, ¬ writes id op) ops → obj_get id (fileCache c) = None →
  obj_get id (fileCache (run truthy ops c)) = None.
Proof.
  unfold run. intros Hops. revert c.
  induction Hops as [|op ops Hop Hops IH]; intros c Hk; simpl; [done|].
  by apply IH, exec_absent.
Qed.
End sequences.
End cache_facts.

(** ** The digest ledger *)

Lemma string_truthy_nonempty (s : string) : string_truthy s = true ↔ s ≠ "".
Proof. by destruct s. Qed.

(** [isKnownInput] and [getLastDigest] agree on which paths have a digest. *)
Lemma isKnownInput_getLastDigest {T} (id : string) (c : FileCache T) :
  isKnownInput id c = true ↔ ∃ d, getLastDigest id c = Returned d.
Proof.
  unfold isKnownInput, getLastDigest.
  destruct (obj_get id (lastDigests c)) as [d|].
  - destruct (string_truthy d); split; try done; [by eexists | by intros [? ?]].
  - split; [done | by intros [? ?]].
Qed.



(** C9: [updateCache digests] leaves an entry whose key [digests] lacks where
    it is, with its digest and value; the entries that stay keep their
    order. *)
Theorem updateCache_frame {T} (digests : list (string * string))
    (c : FileCache T) (fp : string) (e : CacheEntry T) :
  obj_get fp (fileCache c) = Some e →
  obj_get fp digests = None →
  obj_get fp (fileCache (updateCache digests c)) = Some e ∧
  fileCache (updateCache digests c) `sublist_of` fileCache c.
Proof.
  intros He Hd. split; [|apply updateCache_sublist].
  by rewrite updateCache_get, He, Hd.
Qed.

Lemma updateCache_frame_witness :
  let c := mkFileCache [("a.ts", mkEntry "d1" 1); ("lib.d.ts", mkEntry "d7" 2)]
                       [] noStats in
  obj_get "lib.d.ts" (fileCache (updateCache [("a.ts", "d2")] c))
  = Some (mkEntry "d7" 2).
Proof.
  intros c.
  exact (proj1 (updateCache_frame [("a.ts", "d2")] c "lib.d.ts" (mkEntry "d7" 2)
                  eq_refl eq_refl)).
Defined.

(** The ledger of [emptyDigestCache] records a digest for [a.ts], and
    [isKnownInput] answers false. *)
Lemma isKnownInput_empty_digest_counterexample :
  is_Some (obj_get "a.ts" (lastDigests emptyDigestCache)) ∧
  isKnownInput "a.ts" emptyDigestCache = false.
Proof. split; [by eexists | reflexivity]. Qed.

(** C4, amended: for a path [id] that is no inherited name,
    [isKnownInput id] holds exactly when the ledger records a digest other
    than the empty string for [id]; the stored entries and the counters do
    not matter. *)
Theorem isKnownInput_iff_nonempty_digest {T} (id : string) (c : FileCache T) :
  id ∉ ObjectPrototype_names →
  (isKnownInput id c = true ↔ ∃ d, obj_get id (lastDigests c) = Some d ∧ d ≠ "") ∧
  (∀ (fc : list (string * CacheEntry T)) stats,
     isKnownInput id (mkFileCache fc (lastDigests c) stats) = isKnownInput id c).
Proof.
  intros _. split; [|done]. unfold isKnownInput.
  destruct (obj_get id (lastDigests c)) as [d|].
  - rewrite string_truthy_nonempty. split; [by eexists | by intros (? & [= ->] & ?)].
  - split; [done | by intros (? & ? & ?)].
Qed.

Lemma isKnownInput_iff_nonempty_digest_witness :
  ("a.ts" ∉ ObjectPrototype_names) ∧ isKnownInput "a.ts" oneEntryCache = true.
Proof.
  assert ("a.ts" ∉ ObjectPrototype_names) as Hname.
  { apply (bool_decide_unpack _). vm_compute. exact I. }
  split; [exact Hname|].
  apply (proj1 (isKnownInput_iff_nonempty_digest "a.ts" oneEntryCache Hname)).
  exists "d1". split; [reflexivity | discriminate].
Defined.

(** The ledger of [emptyDigestCache] records a digest for [a.ts], and
    [getLastDigest] throws. *)
Lemma getLastDigest_empty_digest_counterexample :
  obj_get "a.ts" (lastDigests emptyDigestCache) = Some "" ∧
  getLastDigest "a.ts" emptyDigestCache =
    Threw "missing input digest for a.ts.(only have a.ts)".
Proof. split; reflexivity. Qed.

(** C5, amended: for a path [id] that is no inherited name,
    [getLastDigest id] returns the recorded digest when it is not the empty
    string, and throws when the ledger has no digest for [id] or the empty
    one; the message of the error names [id] and the recorded paths. *)
Theorem getLastDigest_spec {T} (id : string) (c : FileCache T) :
  id ∉ ObjectPrototype_names →
  match getLastDigest id c with
  | Returned d => obj_get id (lastDigests c) = Some d ∧ d ≠ ""
  | Threw m =>
      (obj_get id (lastDigests c) = None ∨ obj_get id (lastDigests c) = Some "") ∧
      m = "missing input digest for " +:+ id +:+
          ".(only have " +:+ join "," (Object_keys (lastDigests c)) +:+ ")"
  end.
Proof.
  intros _. unfold getLastDigest.
  destruct (obj_get id (lastDigests c)) as [d|].
  - destruct d as [|a d]; simpl; [by split; [right|] | done].
  - simpl. by split; [left|].
Qed.

Lemma getLastDigest_spec_witness :
  ("a.ts" ∉ ObjectPrototype_names) ∧
  obj_get "a.ts" (lastDigests oneEntryCache) = Some "d1".
Proof.
  assert ("a.ts" ∉ ObjectPrototype_names) as Hname.
  { apply (bool_decide_unpack _). vm_compute. exact I. }
  split; [exact Hname|].
  exact (proj1 (getLastDigest_spec "a.ts" oneEntryCache Hname)).
Defined.

(** ** The order of the store and the order of use *)

Lemma StronglySorted_sublist {A} (R : relation A) (l1 l2 : list A) :
  l1 `sublist_of` l2 → StronglySorted R l2 → StronglySorted R l1.
Proof.
  induction 1 as [|x l1 l2 Hsub IH|x l1 l2 Hsub IH]; intros Hs; [done| |].
  - apply StronglySorted_cons in Hs as [Hx Hs].
    apply StronglySorted_cons. split; [|by apply IH].
    apply Forall_forall. intros y Hy. rewrite Forall_forall in Hx.
    by apply Hx, (sublist_subseteq _ _ Hsub).
  - apply StronglySorted_cons in Hs as [_ Hs]. by apply IH.
Qed.

Lemma StronglySorted_impl_elem {A} (R R' : relation A) (l : list A) :
  (∀ x y, x ∈ l → y ∈ l → R x y → R' x y) →
  StronglySorted R l → StronglySorted R' l.
Proof.
  induction l as [|x l IH]; intros Himpl Hs; [constructor|].
  apply StronglySorted_cons in Hs as [Hx Hs].
  apply StronglySorted_cons. split.
  - rewrite Forall_forall in *. intros y Hy.
    apply Himpl; [left | by right | by apply Hx].
  - apply IH; [|done]. intros y z Hy Hz. apply Himpl; by right.
Qed.

Lemma sublist_keys {V} (o1 o2 : list (string * V)) :
  o1 `sublist_of` o2 → Object_keys o1 `sublist_of` Object_keys o2.
Proof.
  unfold Object_keys. induction 1; csimpl; by constructor.
Qed.

Section recency_facts.
Context {T : Type}.
Variable truthy : T → bool.
Implicit Types (fc : list (string * CacheEntry T)) (c : FileCache T).
Implicit Types (s : Timed T) (ks : list string) (k : string).

Lemma keys_delete_sublist k fc :
  Object_keys (obj_delete k fc) `sublist_of` Object_keys fc.
Proof. apply sublist_keys, sublist_filter. Qed.

Lemma keys_evict_sublist n fc : Object_keys (evict n fc) `sublist_of` Object_keys fc.
Proof.
  unfold evict. generalize (take n (Object_keys fc)) as ks. intros ks. revert fc.
  induction ks as [|k ks IH]; intros fc; cbn [foldl]; [done|].
  etrans; [apply IH | apply keys_delete_sublist].
Qed.

Lemma keys_storeAtAssign_sublist env c :
  Object_keys (storeAtAssign env c) `sublist_of` Object_keys (fileCache c).
Proof.
  unfold storeAtAssign. destruct (shouldFreeMemory env); [apply keys_evict_sublist | done].
Qed.

Lemma putCache_storeAtAssign env id e c :
  fileCache (putCache env id e c) = obj_set id e (storeAtAssign env c).
Proof. done. Qed.

Lemma cacheNow_runTimed used ops c :
  cacheNow (runTimed truthy used ops c) = run truthy ops c.
Proof.
  unfold runTimed, run. generalize (λ _ : string, @None nat) as f.
  generalize 0 as n. revert c.
  induction ops as [|op ops IH]; intros c n f; cbn [foldl]; [done|].
  unfold tick at 2. cbn [cacheNow clock lastUse]. apply IH.
Qed.

(** A call that uses no path keeps the order of what stays. *)
Lemma inUseOrder_keep s s' ks ks' :
  ks' `sublist_of` ks →
  (∀ k, lastUse s' k = lastUse s k) →
  clock s ≤ clock s' →
  inUseOrder s ks → inUseOrder s' ks'.
Proof.
  intros Hsub Hsame Hclock [Hsorted Hused]. split.
  - apply (StronglySorted_sublist _ _ _ Hsub).
    eapply StronglySorted_impl_elem; [|exact Hsorted].
    intros x y _ _ (t1 & t2 & ? & ? & ?). exists t1, t2. by rewrite !Hsame.
  - apply Forall_forall. intros k Hk. rewrite Forall_forall in Hused.
    destruct (Hused k (sublist_subseteq _ _ Hsub _ Hk)) as (t & Ht & Hlt).
    exists t. rewrite Hsame. split; [done | lia].
Qed.

(** A call that uses a path puts it after what stays. *)
Lemma inUseOrder_touch s s' ks ks' k :
  ks' `sublist_of` ks →
  k ∉ ks' →
  (∀ x, x ≠ k → lastUse s' x = lastUse s x) →
  lastUse s' k = Some (clock s) →
  clock s' = S (clock s) →
  inUseOrder s ks → inUseOrder s' (ks' ++ [k]).
Proof.
  intros Hsub Hk Hsame Hnow Hclock [Hsorted Hused].
  rewrite Forall_forall in Hused.
  assert (∀ x, x ∈ ks' → x ≠ k) as Hne by (intros x Hx ->; done).
  split.
  - apply StronglySorted_app. split_and!.
    + intros x y Hx ->%list_elem_of_singleton.
      destruct (Hused x (sublist_subseteq _ _ Hsub _ Hx)) as (t & Ht & Hlt).
      exists t, (clock s). rewrite Hsame by auto. done.
    + apply (StronglySorted_sublist _ _ _ Hsub) in Hsorted.
      eapply StronglySorted_impl_elem; [|exact Hsorted].
      intros x y Hx Hy (t1 & t2 & ? & ? & ?). exists t1, t2.
      by rewrite !Hsame by auto.
    + repeat constructor.
  - apply Forall_app. split.
    + apply Forall_forall. intros x Hx.
      destruct (Hused x (sublist_subseteq _ _ Hsub _ Hx)) as (t & Ht & Hlt).
      exists t. rewrite Hsame by auto. split; [done | lia].
    + apply Forall_singleton. exists (clock s). split; [done | lia].
Qed.

Lemma tick_lastUse_unused used s op :
  used op (cacheNow s) = None →
  ∀ k, lastUse (tick truthy used s op) k = lastUse s k.
Proof. intros Hu k. unfold tick. cbn [lastUse]. rewrite Hu. by rewrite decide_False. Qed.

Lemma tick_lastUse_used used s op k :
  used op (cacheNow s) = Some k →
  lastUse (tick truthy used s op) k = Some (clock s) ∧
  ∀ x, x ≠ k → lastUse (tick truthy used s op) x = lastUse s x.
Proof.
  intros Hu. unfold tick. cbn [lastUse]. rewrite Hu. split.
  - by rewrite decide_True.
  - intros x Hx. rewrite decide_False; [done | congruence].
Qed.

Lemma getCache_keys_end k e c :
  arrayIndex k = None → obj_get k (fileCache c) = Some e →
  Object_keys (fileCache (getCache k c).2)
  = Object_keys (obj_delete k (fileCache c)) ++ [k].
Proof.
  intros Hi He. rewrite (getCache_hit_end _ _ _ Hi He). cbn [snd fileCache].
  unfold Object_keys. by rewrite fmap_app.
Qed.

(** Every call on plain keys keeps the store in the order of last use. *)
Lemma tick_inUseOrder s op :
  plainOp op →
  inUseOrder s (Object_keys (fileCache (cacheNow s))) →
  inUseOrder (tick truthy usedBy s op)
             (Object_keys (fileCache (cacheNow (tick truthy usedBy s op)))).
Proof.
  intros Hplain Hinv.
  assert (∀ k, plainKey k →
    inUseOrder (tick truthy usedBy s (OpGetCache k))
      (Object_keys (fileCache (getCache k (cacheNow s)).2))) as Hget.
  { intros k [Hi _].
    destruct (obj_get k (fileCache (cacheNow s))) as [e|] eqn:He.
    - rewrite (getCache_keys_end _ _ _ Hi He).
      assert (usedBy (OpGetCache k) (cacheNow s) = Some k) as Hu
        by (simpl; by rewrite He).
      destruct (tick_lastUse_used usedBy s _ _ Hu) as [Hnow Hsame].
      eapply (inUseOrder_touch s); [apply keys_delete_sublist | | exact Hsame | exact Hnow
                               | done | exact Hinv].
      apply obj_get_None, obj_get_delete_eq.
    - rewrite (getCache_miss _ _ He). cbn [snd fileCache].
      eapply (inUseOrder_keep s); [done | | | exact Hinv].
      + apply tick_lastUse_unused. simpl. by rewrite He.
      + simpl. lia. }
  destruct op as [digests|k|env k e|k|]; cbn [plainOp] in Hplain;
    unfold tick at 2; cbn [cacheNow exec].
  - eapply (inUseOrder_keep s); [| |simpl; lia | exact Hinv].
    + apply sublist_keys, updateCache_sublist.
    + by apply tick_lastUse_unused.
  - by apply Hget.
  - rewrite putCache_storeAtAssign.
    destruct (obj_get k (storeAtAssign env (cacheNow s))) as [e0|] eqn:He.
    + rewrite obj_keys_set_present by (by rewrite He).
      eapply (inUseOrder_keep s); [apply keys_storeAtAssign_sublist | |simpl; lia | exact Hinv].
      apply tick_lastUse_unused. simpl. by rewrite He.
    + rewrite obj_set_absent; [|apply Hplain | done].
      unfold Object_keys at 1. rewrite fmap_app. csimpl.
      assert (usedBy (OpPutCache env k e) (cacheNow s) = Some k) as Hu
        by (simpl; by rewrite He).
      destruct (tick_lastUse_used usedBy s _ _ Hu) as [Hnow Hsame].
      eapply (inUseOrder_touch s); [apply keys_storeAtAssign_sublist | | exact Hsame
                               | exact Hnow | done | exact Hinv].
      by apply obj_get_None.
  - rewrite inCache_state.
    destruct (Hget k Hplain) as [Hsorted Hused]. split.
    + eapply StronglySorted_impl_elem; [|exact Hsorted]. by intros x y _ _.
    + exact Hused.
  - eapply (inUseOrder_keep s); [done | |simpl; lia | exact Hinv].
    by apply tick_lastUse_unused.
Qed.

Lemma runTimed_inUseOrder ops :
  Forall plainOp ops →
  inUseOrder (runTimed truthy usedBy ops newFileCache)
    (Object_keys (fileCache (cacheNow (runTimed truthy usedBy ops newFileCache)))).
Proof.
  intros Hops. unfold runTimed.
  assert (∀ s, inUseOrder s (Object_keys (fileCache (cacheNow s))) →
               inUseOrder (foldl (tick truthy usedBy) s ops)
                 (Object_keys (fileCache (cacheNow (foldl (tick truthy usedBy) s ops)))))
    as Hall.
  { induction Hops as [|op ops Hop Hops IH]; intros s Hinit; cbn [foldl]; [done|].
    by apply IH, tick_inUseOrder. }
  apply Hall. split; constructor.
Qed.
End recency_facts.

(** ** The cache store *)

(** Writes in the order [a.ts], [b.ts], [a.ts] again, and then a write of
    [c.ts] under memory pressure: the entry of [a.ts], the one written last
    of the two, is evicted, and the entry of [b.ts] stays. *)
Lemma putCache_overwrite_not_recent_counterexample :
  let s := runTimed (λ _ : nat, true) usedBySpec overwriteOps newFileCache in
  lastUse s "a.ts" = Some 2 ∧
  lastUse s "b.ts" = Some 1 ∧
  fileCache (cacheNow s) = [("a.ts", mkEntry "d3" 3); ("b.ts", mkEntry "d2" 2)] ∧
  fileCache (putCache pressureEnv "c.ts" (mkEntry "d4" 4) (cacheNow s))
  = [("b.ts", mkEntry "d2" 2); ("c.ts", mkEntry "d4" 4)].
Proof. split_and!; reflexivity. Qed.

(** C2, amended: under memory pressure [putCache id e], for a path other
    than [__proto__], first deletes the
    first [Math.round(N / 2)] of the [N] stored entries, in the order of the
    store, then stores [e]: the last [N / 2] entries stay, at most half of
    [N] rounded up.  After any calls on plain keys, from a new cache, the
    order of the store is the order of last use, where a use of a path is a
    [getCache] or [inCache] that finds it or a [putCache] that adds it (one
    that replaces its entry is none): so every entry that stays was used
    after every entry that goes.  Ten entries written in turn under plain
    keys into a new cache and an eleventh written under pressure leave the
    last five of the ten and the eleventh, six in all. *)
Theorem putCache_under_pressure {T} (truthy : T → bool) :
  (∀ (env : PutEnv) (id : string) (e : CacheEntry T) (c : FileCache T),
     id ≠ "__proto__" →
     obj_wf (fileCache c) →
     shouldFreeMemory env = true →
     let N := length (fileCache c) in
     let survivors := drop (Math_round_half N) (fileCache c) in
     evict (Math_round_half N) (fileCache c) = survivors ∧
     fileCache (putCache env id e c) = obj_set id e survivors ∧
     fileCache c = take (Math_round_half N) (fileCache c) ++ survivors ∧
     length survivors = N / 2 ∧
     length survivors ≤ Math_round_half N ∧
     2 * Math_round_half N - 1 ≤ N ≤ 2 * Math_round_half N ∧
     (arrayIndex id = None → obj_get id (fileCache c) = None →
      fileCache (putCache env id e c) = survivors ++ [(id, e)])) ∧
  (∀ ops : list (Op T),
     Forall plainOp ops →
     let s := runTimed truthy usedBy ops newFileCache in
     let N := length (fileCache (cacheNow s)) in
     cacheNow s = run truthy ops newFileCache ∧
     StronglySorted (usedBefore s) (Object_keys (fileCache (cacheNow s))) ∧
     ∀ gone kept,
       gone ∈ Object_keys (take (Math_round_half N) (fileCache (cacheNow s))) →
       kept ∈ Object_keys (drop (Math_round_half N) (fileCache (cacheNow s))) →
       usedBefore s gone kept) ∧
  (∀ (env quiet : PutEnv) (id : string) (e : CacheEntry T)
     (l : list (string * CacheEntry T)),
     shouldFreeMemory env = true →
     shouldFreeMemory quiet = false →
     obj_wf l → Forall plainKey (Object_keys l) → length l = 10 →
     plainKey id → id ∉ Object_keys l →
     let c := foldl (λ c' p, putCache quiet p.1 p.2 c') newFileCache l in
     fileCache (putCache env id e c) = drop 5 l ++ [(id, e)] ∧
     length (fileCache (putCache env id e c)) = 6).
Proof.
  assert (∀ (c : FileCache T) n id, obj_wf (fileCache c) →
            obj_get id (fileCache c) = None →
            obj_get id (drop n (fileCache c)) = None) as Habs.
  { intros c n id Hwf Hk. rewrite <- (evict_drop n); [|done]. by apply evict_get_None. }
  split_and!.
  - intros env id e c _ Hwf Hp N survivors.
    assert (length survivors = N / 2) as Hlen.
    { unfold survivors. rewrite length_drop. apply Math_round_half_rest. }
    assert (fileCache (putCache env id e c) = obj_set id e survivors) as Hput.
    { by apply putCache_fileCache_pressure. }
    split_and!.
    + by apply evict_drop.
    + done.
    + unfold survivors. by rewrite take_drop.
    + done.
    + rewrite Hlen. pose proof (Math_round_half_ceil N).
      pose proof (Nat.div_mod_eq N 2). lia.
    + apply Math_round_half_ceil.
    + apply Math_round_half_ceil.
    + intros Hi Hk. rewrite Hput. apply obj_set_absent; [done|]. by apply Habs.
  - intros ops Hops s N.
    destruct (runTimed_inUseOrder truthy ops Hops) as [Hsorted _].
    fold s in Hsorted. split_and!.
    + apply cacheNow_runTimed.
    + done.
    + intros gone kept Hgone Hkept.
      rewrite <- (take_drop (Math_round_half N) (fileCache (cacheNow s))) in Hsorted.
      unfold Object_keys in Hsorted. rewrite fmap_app in Hsorted.
      by apply (StronglySorted_app_1_elem_of _ _ _ _ _ Hsorted).
  - intros env quiet id e l Hp Hq Hl Hplain Hlen10 [Hid _] Hfresh c.
    assert (fileCache c = l) as Hfc.
    { unfold c. rewrite putCache_quiet_build; [done | done | | done].
      eapply Forall_impl; [exact Hplain|]. by intros k [? _]. }
    assert (obj_wf (fileCache c)) as Hwf by (by rewrite Hfc).
    assert (fileCache (putCache env id e c) = drop 5 l ++ [(id, e)]) as Hres.
    { rewrite putCache_fileCache_pressure; [|done|done]. rewrite Hfc, Hlen10.
      apply obj_set_absent; [done|]. rewrite <- Hfc. apply Habs; [done|].
      rewrite Hfc. by apply obj_get_None. }
    split; [done|]. rewrite Hres, length_app, length_drop, Hlen10. done.
Qed.

Lemma putCache_under_pressure_witness :
  fileCache (putCache pressureEnv "e11" (mkEntry "d11" 11)
               (foldl (λ c' p, putCache quietEnv p.1 p.2 c') newFileCache scenarioEntries))
  = [("e6", mkEntry "d6" 6); ("e7", mkEntry "d7" 7); ("e8", mkEntry "d8" 8);
     ("e9", mkEntry "d9" 9); ("e10", mkEntry "d10" 10); ("e11", mkEntry "d11" 11)] ∧
  StronglySorted (usedBefore (runTimed (λ _ : nat, true) usedBy historyOps newFileCache))
    (Object_keys
       (fileCache (cacheNow (runTimed (λ _ : nat, true) usedBy historyOps newFileCache)))).
Proof.
  assert (obj_wf scenarioEntries) as Hwf.
  { apply (bool_decide_unpack _). vm_compute. exact I. }
  assert (Forall plainKey (Object_keys scenarioEntries)) as Hplain.
  { repeat constructor; apply (bool_decide_unpack _); vm_compute; exact I. }
  assert (plainKey "e11") as Hid.
  { split; [reflexivity|]. apply (bool_decide_unpack _). vm_compute. exact I. }
  assert ("e11" ∉ Object_keys scenarioEntries) as Hfresh.
  { apply (bool_decide_unpack _). vm_compute. exact I. }
  assert (Forall plainOp historyOps) as Hops.
  { repeat constructor; apply (bool_decide_unpack _); vm_compute; exact I. }
  destruct (putCache_under_pressure (λ _ : nat, true)) as (_ & Hrecent & Hscenario).
  split.
  - exact (proj1 (Hscenario pressureEnv quietEnv "e11" (mkEntry "d11" 11) scenarioEntries
                    eq_refl eq_refl Hwf Hplain eq_refl Hid Hfresh)).
  - exact (proj1 (proj2 (Hrecent historyOps Hops))).
Defined.

(** C6: [putCache id e] without memory pressure, then [getCache id], returns
    the value of [e]. *)
Theorem putCache_then_getCache {T} (env : PutEnv) (id : string)
    (e : CacheEntry T) (c : FileCache T) :
  shouldFreeMemory env = false →
  (getCache id (putCache env id e c)).1 = Some (value e).
Proof. intros _. apply putCache_getCache. Qed.

Lemma putCache_then_getCache_witness :
  (getCache "a.ts" (putCache quietEnv "a.ts" (mkEntry "d1" 7) newFileCache)).1 = Some 7.
Proof.
  exact (putCache_then_getCache quietEnv "a.ts" (mkEntry "d1" 7) newFileCache eq_refl).
Defined.

(** C7: a hit under a key that is an array index does not move the entry:
    after writes of [b.ts] and then of [1] the store lists [1] first, and a
    [getCache] of [1] finds its value, counts the hit and leaves [1] first,
    where the next eviction takes it. *)
Theorem getCache_index_key_stays_first :
  let c := run (λ _ : nat, true) indexKeyOps newFileCache in
  Object_keys (fileCache c) = ["1"; "b.ts"] ∧
  (getCache "1" c).1 = Some 1 ∧
  hits (cacheStats (getCache "1" c).2) = S (hits (cacheStats c)) ∧
  Object_keys (fileCache (getCache "1" c).2) = ["1"; "b.ts"] ∧
  Object_keys (fileCache (putCache pressureEnv "c.ts" (mkEntry "d4" 4)
                            (getCache "1" c).2)) = ["b.ts"; "c.ts"].
Proof. split_and!; reflexivity. Qed.



(** C10: [inCache] of a key that is an array index does not move the entry:
    with [1] and [b.ts] stored, [inCache] of [1] answers true, counts the
    read and the hit and leaves [1] first in the store. *)
Theorem inCache_index_key_stays_first :
  let c := run (λ _ : nat, true) indexKeyOps newFileCache in
  let truthy := λ n : nat, bool_decide (n ≠ 0) in
  Object_keys (fileCache c) = ["1"; "b.ts"] ∧
  (inCache truthy "1" c).1 = true ∧
  reads (cacheStats (inCache truthy "1" c).2) = S (reads (cacheStats c)) ∧
  hits (cacheStats (inCache truthy "1" c).2) = S (hits (cacheStats c)) ∧
  Object_keys (fileCache (inCache truthy "1" c).2) = ["1"; "b.ts"].
Proof. split_and!; reflexivity. Qed.



(** ** Path segments *)

Lemma split_nonempty (sep : ascii) (s : string) : split sep s ≠ [].
Proof.
  induction s as [|c s IH]; simpl; [done|].
  case_decide; [done|]. by destruct (split sep s).
Qed.

(** Joining the segments with the separator gives the path back. *)
Lemma join_split (sep : ascii) (s : string) :
  join (String sep EmptyString) (split sep s) = s.
Proof.
  induction s as [|c s IH]; simpl; [done|].
  pose proof (split_nonempty sep s) as Hne.
  case_decide as Hc.
  - destruct (split sep s) as [|y ys]; [done|]. subst c. by rewrite <- IH.
  - destruct (split sep s) as [|y ys]; [done|].
    destruct ys as [|z zs]; by rewrite <- IH.
Qed.

(** No segment contains the separator. *)
Lemma split_segments (sep : ascii) (s seg : string) :
  seg ∈ split sep s → sep ∉ String.list_ascii_of_string seg.
Proof.
  revert seg. induction s as [|c s IH]; simpl; intros seg Hin.
  - apply list_elem_of_singleton in Hin as ->. apply not_elem_of_nil.
  - case_decide as Hc.
    + apply elem_of_cons in Hin as [->|Hin]; [simpl; apply not_elem_of_nil | by apply IH].
    + pose proof (split_nonempty sep s) as Hne.
      destruct (split sep s) as [|y ys]; [done|].
      apply elem_of_cons in Hin as [->|Hin].
      * simpl. apply not_elem_of_cons. split; [done|]. apply IH. left.
      * apply IH. by right.
Qed.

Lemma indexOf_found (x : string) (a : list string) : indexOf x a ≠ (-1)%Z ↔ x ∈ a.
Proof.
  assert (∀ a', (-1 ≤ indexOf x a')%Z) as Hge.
  { induction a' as [|y a' IH]; simpl; [done|]. repeat case_decide; lia. }
  induction a as [|y a IH]; simpl.
  - split; [done | by intros ?%elem_of_nil].
  - rewrite elem_of_cons. destruct (decide (y = x)) as [->|Hne].
    + split; [by left | done].
    + specialize (Hge a). case_decide as Hi.
      * split; [done|]. intros [?|Hin]; [done|]. by apply IH in Hin.
      * split; [|lia]. intros _. right. by apply IH.
Qed.

(** [isNonHermeticInput] holds when some segment of the path is
    [node_modules]. *)
Lemma isNonHermeticInput_segment (sep : ascii) (filePath : string) :
  isNonHermeticInput sep filePath = true ↔ "node_modules" ∈ split sep filePath.
Proof.
  unfold isNonHermeticInput. rewrite bool_decide_eq_true. apply indexOf_found.
Qed.

(** ** The cached loader *)

Section loader_facts.
Context {SourceFile ScriptTarget : Type}.
Variable createSourceFile : string → string → ScriptTarget → SourceFile.
Variable path_sep : ascii.
Implicit Types (c : FileCache SourceFile) (e : CacheEntry SourceFile).
Implicit Types (call : Call SourceFile ScriptTarget).
Implicit Types (calls : list (Call SourceFile ScriptTarget)).

(** A load on a hit is a read. *)
Lemma loadFile_hit self env fileName filePath langVer c e :
  obj_get filePath (fileCache c) = Some e →
  loadFile createSourceFile path_sep self env fileName filePath langVer c =
  (Returned (value e), (getCache filePath c).2).
Proof. intros He. unfold loadFile. by rewrite (getCache_hit _ _ _ He). Qed.

(** A load of a non-hermetic path without digest, on a miss, is a read and
    the parse of what the disk gives. *)
Lemma loadFile_nonhermetic_miss self env fileName filePath langVer c :
  allowNonHermeticReads self = true →
  isKnownInput filePath c = false →
  isNonHermeticInput path_sep filePath = true →
  obj_get filePath (fileCache c) = None →
  loadFile createSourceFile path_sep self env fileName filePath langVer c =
  (match readFileSync env filePath with
   | Some sourceText => Returned (createSourceFile fileName sourceText langVer)
   | None => Threw (IOError filePath)
   end,
   mkFileCache (fileCache c) (lastDigests c) (countRead (cacheStats c))).
Proof.
  intros Hallow Hknown Hnh Hmiss. unfold loadFile.
  rewrite (getCache_miss _ _ Hmiss).
  destruct (readFileSync env filePath) as [sourceText|]; [|done].
  assert (isKnownInput filePath
            (mkFileCache (fileCache c) (lastDigests c) (countRead (cacheStats c)))
          = false) as -> by done.
  by rewrite Hallow, Hnh.
Qed.

(** A load leaves each entry as it is, or evicts it. *)
Lemma loadFile_entry self env fileName filePath langVer c id e :
  obj_get id (fileCache c) = Some e →
  obj_get id (fileCache (loadFile createSourceFile path_sep self env
                           fileName filePath langVer c).2) = Some e ∨
  obj_get id (fileCache (loadFile createSourceFile path_sep self env
                           fileName filePath langVer c).2) = None.
Proof.
  intros He. destruct (obj_get filePath (fileCache c)) as [e'|] eqn:Hp.
  - rewrite (loadFile_hit _ _ _ _ _ _ _ Hp). cbn [snd]. left. by rewrite getCache_get.
  - unfold loadFile. rewrite (getCache_miss _ _ Hp).
    destruct (readFileSync env filePath) as [sourceText|]; [|by left].
    destruct (_ && _); [by left|].
    destruct (getLastDigest _ _) as [d|m]; [|by left].
    assert (filePath ≠ id) as Hne by congruence.
    cbn [snd].
    destruct (putCache_get_ne (putEnv env) filePath
                (mkEntry d (createSourceFile fileName sourceText langVer))
                (mkFileCache (fileCache c) (lastDigests c) (countRead (cacheStats c)))
                id Hne) as [-> | ->]; [by left | by right].
Qed.

(** Loads keep the store an object: one entry per key. *)
Lemma loadFile_wf self env fileName filePath langVer c :
  obj_wf (fileCache c) →
  obj_wf (fileCache (loadFile createSourceFile path_sep self env
                       fileName filePath langVer c).2).
Proof.
  intros Hwf. unfold loadFile.
  pose proof (getCache_wf filePath c Hwf) as Hwf1.
  destruct (getCache filePath c) as [[sourceFile|] c1]; cbn [snd] in *; [done|].
  destruct (readFileSync env filePath) as [sourceText|]; [|done].
  destruct (_ && _); [done|].
  destruct (getLastDigest filePath c1) as [d|m]; [|done].
  by apply putCache_wf.
Qed.

Lemma runCalls_wf calls c :
  obj_wf (fileCache c) →
  obj_wf (fileCache (runCalls createSourceFile path_sep calls c)).
Proof.
  unfold runCalls. revert c.
  induction calls as [|call calls IH]; intros c Hwf; cbn [foldl]; [done|].
  apply IH. destruct call; cbn [step]; [by apply exec_wf | by apply loadFile_wf].
Qed.

(** A call that keeps the digest of [id] leaves [id] with its digest, or
    evicts it. *)
Lemma step_digest call c id d :
  keepsDigest id call c →
  storedDigest id c = Some d →
  storedDigest id (step createSourceFile path_sep call c) = Some d ∨
  storedDigest id (step createSourceFile path_sep call c) = None.
Proof.
  intros Hkeep Hd.
  assert (∃ e, obj_get id (fileCache c) = Some e ∧ digest e = d) as (e & He & Hde).
  { unfold storedDigest in Hd. destruct (obj_get id (fileCache c)) as [e|]; [|done].
    exists e. split; [done|]. by injection Hd. }
  unfold storedDigest in *.
  destruct call as [[digests|fp|env fp e'|fp|]|self env fileName fp langVer];
    cbn [step exec keepsDigest] in *.
  - rewrite updateCache_get, He.
    destruct (obj_get id digests); [case_decide|]; simpl; rewrite ?Hde; auto.
  - left. rewrite getCache_get, He. simpl. by rewrite Hde.
  - destruct (decide (fp = id)) as [->|Hne].
    + left. rewrite putCache_get_eq. simpl. f_equal. by apply Hkeep.
    + destruct (putCache_get_ne env fp e' c id Hne) as [-> | ->]; auto.
  - left. rewrite inCache_state, getCache_get, He. simpl. by rewrite Hde.
  - by left.
  - destruct (loadFile_entry self env fileName fp langVer c id e He) as [-> | ->];
      [left; simpl; by rewrite Hde | by right].
Qed.

(** Along calls that keep the digest of [id], the digest stays as it is
    until [id] is evicted. *)
Lemma runCalls_digest calls c id d :
  keepDigests createSourceFile path_sep id calls c →
  storedDigest id c = Some d →
  storedDigest id (runCalls createSourceFile path_sep calls c) = Some d ∨
  ∃ calls1 calls2,
    calls = calls1 ++ calls2 ∧
    storedDigest id (runCalls createSourceFile path_sep calls1 c) = None.
Proof.
  revert c. induction calls as [|call calls IH]; intros c Hkeep Hd; [by left|].
  destruct Hkeep as [Hcall Hkeep].
  destruct (step_digest call c id d Hcall Hd) as [Hsame|Hgone].
  - destruct (IH _ Hkeep Hsame) as [Hend|(calls1 & calls2 & -> & Habs)]; [by left|].
    right. by exists (call :: calls1), calls2.
  - right. by exists [call], calls.
Qed.
End loader_facts.

(** C8: with non-hermetic reads allowed, a path with a [node_modules]
    segment and no digest in the ledger, loaded on a miss, gives the parse
    of what the disk holds (the error of the read if the read fails) and is
    not stored: the store and the ledger are as before, and a [getCache] of
    the path still misses. *)
Theorem loadFile_nonhermetic_not_cached {SourceFile ScriptTarget : Type}
    (createSourceFile : string → string → ScriptTarget → SourceFile)
    (path_sep : ascii) (self : CachedFileLoader) (env : LoadEnv)
    (fileName p : string) (langVer : ScriptTarget) (c : FileCache SourceFile) :
  allowNonHermeticReads self = true →
  obj_get p (lastDigests c) = None →
  "node_modules" ∈ split path_sep p →
  obj_get p (fileCache c) = None →
  let r := loadFile createSourceFile path_sep self env fileName p langVer c in
  r.1 = match readFileSync env p with
        | Some sourceText => Returned (createSourceFile fileName sourceText langVer)
        | None => Threw (IOError p)
        end ∧
  fileCache r.2 = fileCache c ∧
  lastDigests r.2 = lastDigests c ∧
  (getCache p r.2).1 = None.
Proof.
  intros Hallow Hledger Hseg Hmiss r. unfold r.
  rewrite loadFile_nonhermetic_miss; try done.
  - cbn [fst snd]. split_and!; try done. by rewrite getCache_miss.
  - unfold isKnownInput. by rewrite Hledger.
  - by apply isNonHermeticInput_segment.
Qed.

Lemma loadFile_nonhermetic_not_cached_witness :
  let r := loadFile textParser "/" lenientLoader sampleDisk "lib.d.ts" libPath ()
             oneEntryCache in
  r.1 = Returned "declare var x: number;" ∧
  fileCache r.2 = fileCache oneEntryCache ∧
  (getCache libPath r.2).1 = None.
Proof.
  assert ("node_modules" ∈ split "/" libPath) as Hseg.
  { apply (bool_decide_unpack _). vm_compute. exact I. }
  destruct (loadFile_nonhermetic_not_cached textParser "/" lenientLoader
              sampleDisk "lib.d.ts" libPath () oneEntryCache
              eq_refl eq_refl Hseg eq_refl) as (Hr & Hfc & _ & Hget).
  split_and!; [exact Hr | exact Hfc | exact Hget].
Defined.

(** A [putCache] for a stored path replaces the entry where it stands: the
    digest of [a.ts] goes from [d1] to [d2] in one call. *)
Lemma putCache_overwrites_digest_counterexample :
  let c' := exec (λ _, true)
              (OpPutCache quietEnv "a.ts" (mkEntry "d2" "let a = 2;")) oneEntryCache in
  storedDigest "a.ts" oneEntryCache = Some "d1" ∧
  storedDigest "a.ts" c' = Some "d2" ∧
  "d1" ≠ "d2" ∧
  Object_keys (fileCache c') = Object_keys (fileCache oneEntryCache).
Proof. split_and!; [reflexivity | reflexivity | discriminate | reflexivity]. Qed.

(** C3, amended: a call that is not a [putCache] giving a stored [id] another
    digest never takes [id] from one stored digest to another: [getCache],
    [inCache], [updateCache], [resetStats], [putCache] for another path, for
    an absent [id] or with the digest that is stored, and [loadFile], which
    writes only after a miss.  Along such calls a change of the digest of
    [id] passes through a state without [id].  A [putCache] for [id] leaves
    the entry it is given stored under [id], whatever was stored before. *)
Theorem digest_change_passes_through_absence {SourceFile ScriptTarget : Type}
    (createSourceFile : string → string → ScriptTarget → SourceFile)
    (path_sep : ascii) (id : string) :
  (∀ (call : Call SourceFile ScriptTarget) (c : FileCache SourceFile) (d1 d2 : string),
     keepsDigest id call c →
     storedDigest id c = Some d1 →
     storedDigest id (step createSourceFile path_sep call c) = Some d2 →
     d1 = d2) ∧
  (∀ (calls : list (Call SourceFile ScriptTarget)) (c : FileCache SourceFile)
     (d1 d2 : string),
     keepDigests createSourceFile path_sep id calls c →
     storedDigest id c = Some d1 →
     storedDigest id (runCalls createSourceFile path_sep calls c) = Some d2 →
     d1 ≠ d2 →
     ∃ calls1 calls2,
       calls = calls1 ++ calls2 ∧
       storedDigest id (runCalls createSourceFile path_sep calls1 c) = None) ∧
  (∀ (env : PutEnv) (e : CacheEntry SourceFile) (c : FileCache SourceFile),
     obj_get id (fileCache (putCache env id e c)) = Some e).
Proof.
  split_and!.
  - intros call c d1 d2 Hkeep H1 H2.
    destruct (step_digest createSourceFile path_sep call c id d1 Hkeep H1) as [Hs|Hs];
      rewrite Hs in H2; congruence.
  - intros calls c d1 d2 Hkeep H1 H2 Hne.
    destruct (runCalls_digest createSourceFile path_sep calls c id d1 Hkeep H1)
      as [Hs|(calls1 & calls2 & -> & Habs)].
    + rewrite Hs in H2. congruence.
    + by exists calls1, calls2.
  - intros env e c. apply putCache_get_eq.
Qed.

Lemma digest_change_passes_through_absence_witness :
  storedDigest "a.ts" oneEntryCache = Some "d1" ∧
  storedDigest "a.ts" (runCalls textParser "/" reloadCalls oneEntryCache) = Some "d2" ∧
  ∃ calls1 calls2,
    reloadCalls = calls1 ++ calls2 ∧
    storedDigest "a.ts" (runCalls textParser "/" calls1 oneEntryCache) = None.
Proof.
  split_and!; [reflexivity | reflexivity |].
  apply (proj1 (proj2 (digest_change_passes_through_absence textParser "/" "a.ts"))
           reloadCalls oneEntryCache "d1" "d2").
  - repeat split.
  - reflexivity.
  - reflexivity.
  - discriminate.
Defined.

(** * Further properties *)

(** ** The paths of [loadFile] *)

Lemma getLastDigest_Returned {T} (p d : string) (c : FileCache T) :
  getLastDigest p c = Returned d ↔ obj_get p (lastDigests c) = Some d ∧ d ≠ "".
Proof.
  unfold getLastDigest. destruct (obj_get p (lastDigests c)) as [d'|].
  - destruct d' as [|a d']; simpl.
    + split; [done | by intros [[= <-] ?]].
    + split; [by intros [= <-] | by intros [[= <-] _]].
  - split; [done | by intros [? _]].
Qed.

Lemma getLastDigest_unknown {T} (p : string) (c : FileCache T) :
  isKnownInput p c = false →
  getLastDigest p c = Threw (missingDigestMessage p (Object_keys (lastDigests c))).
Proof.
  unfold isKnownInput, getLastDigest.
  destruct (obj_get p (lastDigests c)) as [d|]; [|done]. by intros ->.
Qed.

Lemma isKnownInput_digest {T} (p d : string) (c : FileCache T) :
  obj_get p (lastDigests c) = Some d → d ≠ "" → isKnownInput p c = true.
Proof. intros Hd Hne. unfold isKnownInput. rewrite Hd. by destruct d. Qed.

Section load_paths.
Context {SourceFile ScriptTarget : Type}.
Variable createSourceFile : string → string → ScriptTarget → SourceFile.
Variable path_sep : ascii.
Implicit Types (c : FileCache SourceFile) (e : CacheEntry SourceFile).
Implicit Types (self : CachedFileLoader) (env : LoadEnv) (langVer : ScriptTarget).

Local Abbreviation load := (loadFile createSourceFile path_sep).
Local Abbreviation afterRead c :=
  (mkFileCache (fileCache c) (lastDigests c) (countRead (cacheStats c))).

Lemma loadFile_read_fails self env fileName p langVer c :
  obj_get p (fileCache c) = None →
  readFileSync env p = None →
  load self env fileName p langVer c = (Threw (IOError p), afterRead c).
Proof.
  intros Hmiss Hread. unfold loadFile.
  by rewrite (getCache_miss _ _ Hmiss), Hread.
Qed.

Lemma loadFile_known_miss self env fileName p langVer c d sourceText :
  obj_get p (fileCache c) = None →
  obj_get p (lastDigests c) = Some d → d ≠ "" →
  readFileSync env p = Some sourceText →
  load self env fileName p langVer c =
  (Returned (createSourceFile fileName sourceText langVer),
   putCache (putEnv env) p (mkEntry d (createSourceFile fileName sourceText langVer))
            (afterRead c)).
Proof.
  intros Hmiss Hd Hne Hread. unfold loadFile.
  rewrite (getCache_miss _ _ Hmiss), Hread.
  assert (isKnownInput p (afterRead c) = true) as ->
    by (by apply (isKnownInput_digest p d)).
  rewrite andb_false_r. cbn [andb].
  assert (getLastDigest p (afterRead c) = Returned d) as ->
    by (by apply getLastDigest_Returned).
  done.
Qed.

Lemma loadFile_unknown_miss self env fileName p langVer c sourceText :
  obj_get p (fileCache c) = None →
  readFileSync env p = Some sourceText →
  isKnownInput p c = false →
  allowNonHermeticReads self = false ∨ isNonHermeticInput path_sep p = false →
  load self env fileName p langVer c =
  (Threw (MissingDigest (missingDigestMessage p (Object_keys (lastDigests c)))),
   afterRead c).
Proof.
  intros Hmiss Hread Hknown Hstrict. unfold loadFile.
  rewrite (getCache_miss _ _ Hmiss), Hread.
  assert (allowNonHermeticReads self
          && negb (isKnownInput p (afterRead c))
          && isNonHermeticInput path_sep p = false) as ->.
  { destruct Hstrict as [-> | ->]; [done | apply andb_false_r]. }
  by rewrite (getLastDigest_unknown p (afterRead c) Hknown).
Qed.

(** The three ways a load ends. *)
Lemma loadFile_cases self env fileName p langVer c :
  (∃ e, obj_get p (fileCache c) = Some e ∧
        load self env fileName p langVer c = (Returned (value e), (getCache p c).2)) ∨
  (obj_get p (fileCache c) = None ∧
   (load self env fileName p langVer c).2 = afterRead c) ∨
  (∃ d sourceText,
     obj_get p (fileCache c) = None ∧
     readFileSync env p = Some sourceText ∧
     obj_get p (lastDigests c) = Some d ∧ d ≠ "" ∧
     load self env fileName p langVer c =
     (Returned (createSourceFile fileName sourceText langVer),
      putCache (putEnv env) p
        (mkEntry d (createSourceFile fileName sourceText langVer)) (afterRead c))).
Proof.
  destruct (obj_get p (fileCache c)) as [e|] eqn:Hp.
  { left. exists e. split; [done|]. by apply loadFile_hit. }
  right. unfold loadFile. rewrite (getCache_miss _ _ Hp).
  destruct (readFileSync env p) as [sourceText|]; [|by left].
  destruct (_ && _); [by left|].
  destruct (getLastDigest p (afterRead c)) as [d|m] eqn:Hd; [|by left].
  apply getLastDigest_Returned in Hd as [Hd Hne].
  right. by exists d, sourceText.
Qed.


(** X2: a miss on a path with a non-empty digest [d] in the ledger, when the
    read succeeds, returns the parse of the text read and stores it under
    the path with digest [d]; every later [loadFile] of the path, in the state
    this one leaves, returns that same parse. *)
Theorem loadFile_known_miss_then_hit self env fileName p langVer c d sourceText :
  obj_get p (fileCache c) = None →
  obj_get p (lastDigests c) = Some d → d ≠ "" →
  readFileSync env p = Some sourceText →
  let parsed := createSourceFile fileName sourceText langVer in
  let r := load self env fileName p langVer c in
  r.1 = Returned parsed ∧
  obj_get p (fileCache r.2) = Some (mkEntry d parsed) ∧
  lastDigests r.2 = lastDigests c ∧
  ∀ self' env' fileName' langVer',
    (load self' env' fileName' p langVer' r.2).1 = Returned parsed.
Proof.
  intros Hmiss Hd Hne Hread parsed r. unfold r.
  rewrite (loadFile_known_miss _ _ _ _ _ _ d sourceText); try done.
  cbn [fst snd]. fold parsed.
  assert (obj_get p (fileCache (putCache (putEnv env) p (mkEntry d parsed) (afterRead c)))
          = Some (mkEntry d parsed)) as Hstored by apply putCache_get_eq.
  split_and!; try done.
  intros self' env' fileName' langVer'.
  by rewrite (loadFile_hit _ _ _ _ _ _ _ _ _ Hstored).
Qed.


(** X4: on a miss the cached loader returns or throws what the uncached
    loader does, unless it throws the missing-digest error, which it does
    only after a read that succeeded. *)
Theorem loadFile_miss_agrees_with_uncached self env fileName p langVer c :
  obj_get p (fileCache c) = None →
  (load self env fileName p langVer c).1 =
    uncachedLoadFile createSourceFile env fileName p langVer ∨
  (∃ message sourceText,
     (load self env fileName p langVer c).1 = Threw (MissingDigest message) ∧
     uncachedLoadFile createSourceFile env fileName p langVer =
       Returned (createSourceFile fileName sourceText langVer)).
Proof.
  intros Hmiss. unfold loadFile, uncachedLoadFile.
  rewrite (getCache_miss _ _ Hmiss).
  destruct (readFileSync env p) as [sourceText|]; [|by left].
  destruct (_ && _); [by left|].
  destruct (getLastDigest p (afterRead c)) as [d|m]; [by left|].
  right. by exists m, sourceText.
Qed.
End load_paths.


Lemma loadFile_known_miss_then_hit_witness :
  let c := mkFileCache [] [("a.ts", "d2")] noStats in
  let r := loadFile textParser "/" lenientLoader sampleDisk "a.ts" "a.ts" () c in
  r.1 = Returned "let a = 2;" ∧
  obj_get "a.ts" (fileCache r.2) = Some (mkEntry "d2" "let a = 2;").
Proof.
  intros c r.
  destruct (loadFile_known_miss_then_hit textParser "/" lenientLoader sampleDisk
              "a.ts" "a.ts" () c "d2" "let a = 2;" eq_refl eq_refl
              ltac:(discriminate) eq_refl) as (Hr & Hstored & _).
  split; [exact Hr | exact Hstored].
Defined.


Lemma loadFile_miss_agrees_with_uncached_witness :
  (loadFile textParser "/" lenientLoader sampleDisk "lib.d.ts" libPath () oneEntryCache).1
  = uncachedLoadFile textParser sampleDisk "lib.d.ts" libPath () ∨
  (∃ message sourceText,
     (loadFile textParser "/" lenientLoader sampleDisk "lib.d.ts" libPath ()
        oneEntryCache).1 = Threw (MissingDigest message) ∧
     uncachedLoadFile textParser sampleDisk "lib.d.ts" libPath () =
       Returned (textParser "lib.d.ts" sourceText ())).
Proof.
  exact (loadFile_miss_agrees_with_uncached textParser "/" lenientLoader sampleDisk
           "lib.d.ts" libPath () oneEntryCache eq_refl).
Defined.

(** ** Invariants of call sequences *)

Lemma getCache_stats {T} (p : string) (c : FileCache T) :
  reads (cacheStats (getCache p c).2) = S (reads (cacheStats c)) ∧
  hits (cacheStats c) ≤ hits (cacheStats (getCache p c).2) ≤ S (hits (cacheStats c)) ∧
  readTimeMs (cacheStats (getCache p c).2) = readTimeMs (cacheStats c).
Proof.
  unfold getCache. destruct (obj_get p (fileCache c)); simpl; lia.
Qed.

Section call_invariants.
Context {SourceFile ScriptTarget : Type}.
Variable createSourceFile : string → string → ScriptTarget → SourceFile.
Variable path_sep : ascii.
Implicit Types (c : FileCache SourceFile) (e : CacheEntry SourceFile).
Implicit Types (call : Call SourceFile ScriptTarget).
Implicit Types (calls : list (Call SourceFile ScriptTarget)).

Local Abbreviation load := (loadFile createSourceFile path_sep).
Local Abbreviation step' := (step createSourceFile path_sep).
Local Abbreviation runCalls' := (runCalls createSourceFile path_sep).

Lemma runCalls_app calls1 calls2 c :
  runCalls' (calls1 ++ calls2) c = runCalls' calls2 (runCalls' calls1 c).
Proof. unfold runCalls. apply foldl_app. Qed.

Lemma loadFile_lastDigests self env fileName p langVer c :
  lastDigests (load self env fileName p langVer c).2 = lastDigests c.
Proof.
  destruct (loadFile_cases createSourceFile path_sep self env fileName p langVer c)
    as [(e & _ & ->) | [[_ ->] | (d & sourceText & _ & _ & _ & _ & ->)]];
    cbn [snd]; [apply getCache_lastDigests | done | done].
Qed.

Lemma step_lastDigests call c :
  keepsLedger call → lastDigests (step' call c) = lastDigests c.
Proof.
  destruct call as [[digests|fp|env fp e'|fp|]|self env fileName fp langVer];
    cbn [step exec keepsLedger]; intros Hkeep; try done.
  - apply getCache_lastDigests.
  - rewrite inCache_state. apply getCache_lastDigests.
  - apply loadFile_lastDigests.
Qed.

Lemma runCalls_lastDigests calls c :
  Forall keepsLedger calls → lastDigests (runCalls' calls c) = lastDigests c.
Proof.
  intros Hcalls. revert c. unfold runCalls.
  induction Hcalls as [|call calls Hcall Hcalls IH]; intros c; cbn [foldl]; [done|].
  rewrite IH. by apply step_lastDigests.
Qed.

Lemma loadFile_hits_reads self env fileName p langVer c :
  hits (cacheStats c) ≤ reads (cacheStats c) →
  hits (cacheStats (load self env fileName p langVer c).2)
  ≤ reads (cacheStats (load self env fileName p langVer c).2).
Proof.
  intros Hle. pose proof (getCache_stats p c) as (Hr & Hh & _).
  destruct (loadFile_cases createSourceFile path_sep self env fileName p langVer c)
    as [(e & _ & ->) | [[_ ->] | (d & sourceText & _ & _ & _ & _ & ->)]];
    cbn [snd]; [lia | simpl; lia | simpl; lia].
Qed.

Lemma step_hits_reads call c :
  hits (cacheStats c) ≤ reads (cacheStats c) →
  hits (cacheStats (step' call c)) ≤ reads (cacheStats (step' call c)).
Proof.
  intros Hle.
  destruct call as [[digests|fp|env fp e'|fp|]|self env fileName fp langVer];
    cbn [step exec].
  - done.
  - pose proof (getCache_stats fp c). lia.
  - done.
  - rewrite inCache_state. pose proof (getCache_stats fp c). lia.
  - simpl. lia.
  - by apply loadFile_hits_reads.
Qed.

Lemma step_coherent call c : viaLoader call → coherent c → coherent (step' call c).
Proof.
  intros Hvia Hco k e d.
  destruct call as [[digests|fp|env fp e'|fp|]|self env fileName fp langVer];
    cbn [step exec viaLoader] in *.
  - rewrite updateCache_get. cbn [updateCache lastDigests]. intros He Hd.
    rewrite Hd in He. destruct (obj_get k (fileCache c)) as [e0|]; [|done].
    case_decide; [|done]. congruence.
  - rewrite getCache_get, getCache_lastDigests. apply Hco.
  - done.
  - rewrite inCache_state, getCache_get, getCache_lastDigests. apply Hco.
  - apply Hco.
  - rewrite loadFile_lastDigests.
    destruct (loadFile_cases createSourceFile path_sep self env fileName fp langVer c)
      as [(e0 & _ & ->) | [[_ ->] | (d' & sourceText & _ & _ & Hd' & _ & ->)]];
      cbn [snd].
    + rewrite getCache_get. apply Hco.
    + apply Hco.
    + destruct (decide (fp = k)) as [->|Hne].
      * rewrite putCache_get_eq. intros [= <-] Hd. simpl. congruence.
      * destruct (putCache_get_ne (putEnv env) fp
                    (mkEntry d' (createSourceFile fileName sourceText langVer))
                    (mkFileCache (fileCache c) (lastDigests c) (countRead (cacheStats c)))
                    k Hne) as [-> | ->]; [apply Hco | done].
Qed.

Lemma runCalls_hits_reads calls c :
  hits (cacheStats c) ≤ reads (cacheStats c) →
  hits (cacheStats (runCalls' calls c)) ≤ reads (cacheStats (runCalls' calls c)).
Proof.
  unfold runCalls. revert c.
  induction calls as [|call calls IH]; intros c Hle; cbn [foldl]; [done|].
  by apply IH, step_hits_reads.
Qed.


(** X6: the ledger is the mapping of the last [updateCache]: the calls after
    it, whatever they are, leave it as that call set it, and a sequence
    without [updateCache] leaves the ledger it started with. *)
Theorem ledger_is_last_update calls1 digests calls2 c :
  Forall keepsLedger calls2 →
  lastDigests (runCalls' (calls1 ++ CallCache (OpUpdateCache digests) :: calls2) c)
  = digests ∧
  lastDigests (runCalls' calls2 c) = lastDigests c.
Proof.
  intros Hcalls. split; [|by apply runCalls_lastDigests].
  rewrite runCalls_app. change (CallCache (OpUpdateCache digests) :: calls2)
    with ([CallCache (OpUpdateCache digests)] ++ calls2).
  rewrite runCalls_app. by rewrite runCalls_lastDigests.
Qed.

(** X7: no sequence of calls takes the hit counter above the read counter;
    so the misses that [traceStats] reports, reads minus hits, are never
    negative. *)
Theorem hits_never_exceed_reads calls c :
  hits (cacheStats c) ≤ reads (cacheStats c) →
  let c' := runCalls' calls c in
  hits (cacheStats c') ≤ reads (cacheStats c') ∧
  ∃ misses : nat,
    hits (cacheStats c') + misses = reads (cacheStats c') ∧
    traceStats c' =
    [("file cache hit rate",
      [("hits", Z.of_nat (hits (cacheStats c'))); ("misses", Z.of_nat misses)]);
     ("file cache time", [("read", readTimeMs (cacheStats c'))])].
Proof.
  intros Hle c'.
  assert (hits (cacheStats c') ≤ reads (cacheStats c')) as Hle'
    by (by apply runCalls_hits_reads).
  split; [done|].
  exists (reads (cacheStats c') - hits (cacheStats c')). split; [lia|].
  unfold traceStats. by rewrite Nat2Z.inj_sub.
Qed.
End call_invariants.


Lemma ledger_is_last_update_witness :
  lastDigests (runCalls textParser "/" reloadCalls oneEntryCache) = [("a.ts", "d2")].
Proof.
  refine (proj1 (ledger_is_last_update textParser "/" [] [("a.ts", "d2")]
                   [CallLoadFile lenientLoader sampleDisk "a.ts" "a.ts" ()]
                   oneEntryCache _)).
  repeat constructor.
Defined.

Lemma hits_never_exceed_reads_witness :
  hits (cacheStats (runCalls textParser "/" reloadCalls oneEntryCache))
  ≤ reads (cacheStats (runCalls textParser "/" reloadCalls oneEntryCache)).
Proof.
  refine (proj1 (hits_never_exceed_reads textParser "/" reloadCalls oneEntryCache _)).
  simpl. lia.
Defined.

(** ** More on the digest update *)

Lemma dropIfStale_loop_fixed {T} (digests : list (string * string))
    (fc : list (string * CacheEntry T)) (ks : list string) :
  (∀ fp e, fp ∈ ks → obj_get fp fc = Some e → Some (digest e) = obj_get fp digests) →
  foldl (dropIfStale digests) fc ks = fc.
Proof.
  induction ks as [|fp ks IH]; intros Hfresh; cbn [foldl]; [done|].
  assert (dropIfStale digests fc fp = fc) as ->.
  { unfold dropIfStale. destruct (obj_get fp fc) as [e|] eqn:He; [|done].
    rewrite decide_False; [done|]. intros Hne. apply Hne, Hfresh; [left | done]. }
  apply IH. intros fp' e Hin. apply Hfresh. by right.
Qed.

(** X8: [updateCache] with the same mapping a second time changes nothing:
    the first call has already dropped every entry the mapping disagrees
    with. *)
Theorem updateCache_idempotent {T} (digests : list (string * string)) (c : FileCache T) :
  updateCache digests (updateCache digests c) = updateCache digests c.
Proof.
  unfold updateCache. cbn [fileCache lastDigests cacheStats].
  f_equal. apply dropIfStale_loop_fixed. intros fp e Hin.
  change (foldl (dropIfStale digests) (fileCache c) (Object_keys digests))
    with (fileCache (updateCache digests c)).
  rewrite updateCache_get.
  destruct (obj_get fp (fileCache c)) as [e0|]; [|done].
  destruct (obj_get fp digests) as [d|] eqn:Hd.
  - case_decide; [|done]. congruence.
  - by apply obj_get_None in Hd.
Qed.



(** ** More on reads, writes and eviction *)

Section store_facts.
Context {T : Type}.
Implicit Types (fc : list (string * CacheEntry T)) (c : FileCache T).
Implicit Types (k id : string) (e : CacheEntry T).

(** Deleting a property and putting it back at the end permutes the
    object. *)
Lemma obj_delete_app_perm id e fc :
  obj_wf fc → obj_get id fc = Some e → obj_delete id fc ++ [(id, e)] ≡ₚ fc.
Proof.
  unfold obj_wf, Object_keys.
  induction fc as [|[k v] fc IH]; csimpl; intros Hnd He; [done|].
  apply NoDup_cons in Hnd as [Hk Hnd].
  destruct (decide (id = k)) as [->|Hne].
  - simplify_eq. rewrite obj_delete_cons_eq.
    rewrite obj_delete_absent; [|by apply obj_get_None].
    symmetry. apply Permutation_cons_append.
  - rewrite obj_delete_cons_ne; [|done]. simpl. f_equiv. by apply IH.
Qed.

Lemma obj_delete_delete id fc : obj_delete id (obj_delete id fc) = obj_delete id fc.
Proof. apply obj_delete_absent, obj_get_delete_eq. Qed.

Lemma obj_delete_insert_index i id e fc :
  obj_get id fc = None → obj_delete id (obj_insert_index i id e fc) = fc.
Proof.
  induction fc as [|[k v] fc IH]; simpl.
  - intros _. by rewrite obj_delete_cons_eq.
  - case_decide as Hne; [done|]. intros Hk.
    destruct (arrayIndex k) as [j|]; [destruct (j <? i)%N|].
    + rewrite obj_delete_cons_ne by done. by rewrite IH.
    + rewrite obj_delete_cons_eq, obj_delete_cons_ne by done.
      rewrite obj_delete_absent; [done|]. by apply obj_get_None, obj_get_None.
    + rewrite obj_delete_cons_eq, obj_delete_cons_ne by done.
      rewrite obj_delete_absent; [done|]. by apply obj_get_None, obj_get_None.
Qed.

(** Deleting a property that was just added gives the object back. *)
Lemma obj_delete_set_absent id e fc :
  obj_get id fc = None → obj_delete id (obj_set id e fc) = fc.
Proof.
  intros Hk. unfold obj_set. rewrite Hk. destruct (arrayIndex id) as [i|].
  - by apply obj_delete_insert_index.
  - unfold obj_delete. rewrite filter_app.
    rewrite filter_cons_False by (simpl; auto). rewrite filter_nil, app_nil_r.
    by apply obj_delete_absent.
Qed.

(** X10: without memory pressure [putCache] of a path other than
    [__proto__] evicts nothing: every other path keeps its entry, a path that
    was stored keeps its place in the order, and a new path that is no array
    index goes to the end. *)
Theorem putCache_quiet_keeps_entries env id e c :
  id ≠ "__proto__" →
  shouldFreeMemory env = false →
  (∀ k, k ≠ id →
     obj_get k (fileCache (putCache env id e c)) = obj_get k (fileCache c)) ∧
  obj_get id (fileCache (putCache env id e c)) = Some e ∧
  (is_Some (obj_get id (fileCache c)) →
   Object_keys (fileCache (putCache env id e c)) = Object_keys (fileCache c)) ∧
  (arrayIndex id = None → obj_get id (fileCache c) = None →
   fileCache (putCache env id e c) = fileCache c ++ [(id, e)]).
Proof.
  intros _ Hq. rewrite (putCache_fileCache_quiet _ _ _ _ Hq). split_and!.
  - intros k Hne. by apply obj_get_set_ne.
  - apply obj_get_set_eq.
  - apply obj_keys_set_present.
  - apply obj_set_absent.
Qed.


End store_facts.


Lemma putCache_quiet_keeps_entries_witness :
  fileCache (putCache quietEnv "a.ts" (mkEntry "d2" "let a = 2;") oneEntryCache)
  = [("a.ts", mkEntry "d2" "let a = 2;")] ∧
  fileCache (putCache quietEnv "b.ts" (mkEntry "d3" "let b;") oneEntryCache)
  = [("a.ts", mkEntry "d1" "let a = 1;"); ("b.ts", mkEntry "d3" "let b;")].
Proof.
  split.
  - pose proof (putCache_quiet_keeps_entries quietEnv "a.ts"
                  (mkEntry "d2" "let a = 2;") oneEntryCache
                  ltac:(discriminate) eq_refl)
      as (_ & Hget & Hkeys & _).
    specialize (Hkeys (ex_intro _ _ eq_refl)).
    destruct (fileCache (putCache quietEnv "a.ts" (mkEntry "d2" "let a = 2;")
                           oneEntryCache)) as [|[k v] [|? ?]]; try discriminate Hkeys.
    simpl in Hkeys, Hget. injection Hkeys as ->.
    rewrite decide_True in Hget by done. by injection Hget as ->.
  - exact (proj2 (proj2 (proj2 (putCache_quiet_keeps_entries quietEnv "b.ts"
                                  (mkEntry "d3" "let b;") oneEntryCache
                                  ltac:(discriminate) eq_refl)))
             eq_refl eq_refl).
Defined.




(** ** More on path segments *)

Lemma split_app (sep : ascii) (a b : string) :
  split sep (a +:+ String sep b) = split sep a ++ split sep b.
Proof.
  induction a as [|c a IH]; simpl.
  - by rewrite decide_True.
  - rewrite IH. case_decide; [done|].
    pose proof (split_nonempty sep a) as Hne.
    by destruct (split sep a).
Qed.

Lemma split_one_segment (sep : ascii) (s : string) :
  sep ∉ String.list_ascii_of_string s → split sep s = [s].
Proof.
  induction s as [|c s IH]; simpl; [done|].
  intros [Hc Hs]%not_elem_of_cons.
  rewrite decide_False; [|done]. by rewrite IH.
Qed.

(** X14: [isNonHermeticInput] looks at whole segments.  A path made of two
    paths joined by the separator is non-hermetic when one of the two is; a
    name without separator is non-hermetic only if it is [node_modules]
    itself. *)
Theorem isNonHermeticInput_by_segments (sep : ascii) :
  (∀ a b : string,
     isNonHermeticInput sep (a +:+ String sep b)
     = isNonHermeticInput sep a || isNonHermeticInput sep b) ∧
  (∀ s : string,
     sep ∉ String.list_ascii_of_string s →
     isNonHermeticInput sep s = bool_decide (s = "node_modules")).
Proof.
  split.
  - intros a b. apply Bool.eq_iff_eq_true.
    rewrite orb_true_iff, !isNonHermeticInput_segment, split_app.
    apply elem_of_app.
  - intros s Hs. apply Bool.eq_iff_eq_true.
    rewrite isNonHermeticInput_segment, bool_decide_eq_true, split_one_segment; [|done].
    rewrite list_elem_of_singleton. split; by intros ->.
Qed.

Lemma isNonHermeticInput_by_segments_witness :
  isNonHermeticInput "/" ("node_modules" +:+ String "/" "typescript/lib/lib.d.ts")
  = true ∧
  isNonHermeticInput "/" "my_node_modules" = false.
Proof.
  destruct (isNonHermeticInput_by_segments "/") as [Hjoin Hone].
  split.
  - rewrite Hjoin. reflexivity.
  - rewrite Hone; [reflexivity|].
    apply (bool_decide_unpack _). vm_compute. exact I.
Defined.

(** ** The read counter *)

Section read_counter.
Context {SourceFile ScriptTarget : Type}.
Variable createSourceFile : string → string → ScriptTarget → SourceFile.
Variable path_sep : ascii.
Implicit Types (c : FileCache SourceFile).
Implicit Types (call : Call SourceFile ScriptTarget).
Implicit Types (calls : list (Call SourceFile ScriptTarget)).

Local Abbreviation runCalls' := (runCalls createSourceFile path_sep).

Lemma loadFile_reads self env fileName p langVer c :
  reads (cacheStats (loadFile createSourceFile path_sep self env fileName p langVer c).2)
  = S (reads (cacheStats c)).
Proof.
  pose proof (getCache_stats p c) as (Hr & _).
  destruct (loadFile_cases createSourceFile path_sep self env fileName p langVer c)
    as [(e & _ & ->) | [[_ ->] | (d & sourceText & _ & _ & _ & _ & ->)]];
    cbn [snd]; done.
Qed.

Lemma step_reads call c :
  call ≠ CallCache OpResetStats →
  reads (cacheStats (step createSourceFile path_sep call c))
  = reads (cacheStats c) + lookupsOf call.
Proof.
  intros Hcall.
  destruct call as [[digests|fp|env fp e'|fp|]|self env fileName fp langVer];
    cbn [step exec lookupsOf].
  - simpl. lia.
  - pose proof (getCache_stats fp c). lia.
  - simpl. lia.
  - rewrite inCache_state. pose proof (getCache_stats fp c). lia.
  - done.
  - rewrite loadFile_reads. lia.
Qed.

Lemma runCalls_reads calls c :
  Forall (λ call, call ≠ CallCache OpResetStats) calls →
  reads (cacheStats (runCalls' calls c))
  = reads (cacheStats c) + sum_list (lookupsOf <$> calls).
Proof.
  intros Hcalls. revert c. unfold runCalls.
  induction Hcalls as [|call calls Hcall Hcalls IH]; intros c; csimpl; [lia|].
  rewrite IH, step_reads; [lia | done].
Qed.

(** X15: the read counter counts the lookups made since the last
    [resetStats], one for each [getCache], [inCache] and [loadFile], hit or
    miss, successful or not; without a [resetStats] it grows by that
    number. *)
Theorem reads_count_lookups calls1 calls2 c :
  Forall (λ call, call ≠ CallCache OpResetStats) calls2 →
  reads (cacheStats (runCalls' calls2 c))
  = reads (cacheStats c) + sum_list (lookupsOf <$> calls2) ∧
  reads (cacheStats (runCalls' (calls1 ++ CallCache OpResetStats :: calls2) c))
  = sum_list (lookupsOf <$> calls2).
Proof.
  intros Hcalls. split; [by apply runCalls_reads|].
  rewrite runCalls_app.
  change (CallCache OpResetStats :: calls2) with ([CallCache OpResetStats] ++ calls2).
  rewrite runCalls_app. by rewrite runCalls_reads.
Qed.
End read_counter.

Lemma reads_count_lookups_witness :
  reads (cacheStats (runCalls textParser "/" reloadCalls oneEntryCache)) = 1.
Proof.
  refine (proj1 (reads_count_lookups textParser "/" [] reloadCalls oneEntryCache _)).
  repeat constructor; discriminate.
Defined.
